(** * A shallow embedding of the DPoS consensus core of happyChain

    Sources: [core/types/dpos_context.go] (the [DposContext] of five tries)
    and [consensus/dpos/dpos.go] (slot scheduler, seal verification,
    confirmation tracker, mint counter). *)

From stdpp Require Import base gmap list.
From Stdlib Require Import ZArith Lia.

(* ------------------------------------------------------------------ *)
(** ** Bytes and addresses *)

Abbreviation bytes := (list Byte.byte).

#[global] Instance byte_eq_dec : EqDecision Byte.byte := Byte.byte_eq_dec.
#[global] Instance byte_countable : Countable Byte.byte :=
  inj_countable Byte.to_N Byte.of_N Byte.of_to_N.

(** [common.Address.Bytes()] : the 20 bytes of an address. *)
Definition addr_ok (a : bytes) : Prop := length a = 20.

(* ------------------------------------------------------------------ *)
(** ** Tries *)

(** Modelled from the spec: the Merkle-Patricia trie of the repository's
    [trie] package (not among the given sources) is an authenticated
    key-value map.  [TryGet] answers [nil] for an absent key, [TryUpdate]
    with an empty value deletes the key (as the trie does), and
    [PrefixIterator p] enumerates the entries whose key starts with [p].
    Storage errors ([MissingNodeError]) do not arise in this model. *)
Abbreviation trie := (gmap bytes bytes).

Definition trie_get (k : bytes) (t : trie) : option bytes := t !! k.

Definition trie_update (k v : bytes) (t : trie) : trie :=
  match v with
  | [] => delete k t
  | _ => <[k := v]> t
  end.

Definition trie_delete (k : bytes) (t : trie) : trie := delete k t.

Definition prefix_iter (p : bytes) (t : trie) : list (bytes * bytes) :=
  map_to_list (filter (fun kv : bytes * bytes => p `prefix_of` kv.1) t).

(* ------------------------------------------------------------------ *)
(** ** The five tries of a [DposContext] *)

Record Tries := {
  epochTrie : trie;
  delegateTrie : trie;
  voteTrie : trie;
  candidateTrie : trie;
  mintCntTrie : trie
}.

Definition set_delegate_vote (dt vt : trie) (d : Tries) : Tries :=
  {| epochTrie := epochTrie d; delegateTrie := dt; voteTrie := vt;
     candidateTrie := candidateTrie d; mintCntTrie := mintCntTrie d |}.

Definition set_candidate (ct : trie) (d : Tries) : Tries :=
  {| epochTrie := epochTrie d; delegateTrie := delegateTrie d; voteTrie := voteTrie d;
     candidateTrie := ct; mintCntTrie := mintCntTrie d |}.

Definition set_epoch (et : trie) (d : Tries) : Tries :=
  {| epochTrie := et; delegateTrie := delegateTrie d; voteTrie := voteTrie d;
     candidateTrie := candidateTrie d; mintCntTrie := mintCntTrie d |}.

Definition set_mintCnt (mt : trie) (d : Tries) : Tries :=
  {| epochTrie := epochTrie d; delegateTrie := delegateTrie d; voteTrie := voteTrie d;
     candidateTrie := candidateTrie d; mintCntTrie := mt |}.

(** [NewDposContext]: every trie opened at the empty root. *)
Definition empty_tries : Tries :=
  {| epochTrie := ∅; delegateTrie := ∅; voteTrie := ∅;
     candidateTrie := ∅; mintCntTrie := ∅ |}.

Inductive DposErr :=
| ErrInvalidCandidateToDelegate      (* "invalid candidate to delegate" *)
| ErrInvalidCandidateToUnDelegate    (* "invalid candidate to undelegate" *)
| ErrMismatchCandidateToUnDelegate.  (* "mismatch candidate to undelegate" *)

(** The methods mutate the tries in place and return an error or [nil]:
    each is a function to the new tries and the returned error. *)

Definition BecomeCandidate (candidate : bytes) (d : Tries) : Tries * option DposErr :=
  (set_candidate (trie_update candidate candidate (candidateTrie d)) d, None).

(** One turn of the loop of [KickoutCandidate] over the entry
    [(key, delegator)] the iterator yields. *)
Definition kickout_step (candidate : bytes) (dv : trie * trie) (entry : bytes * bytes)
  : trie * trie :=
  let '(dt, vt) := dv in
  let delegator := entry.2 in
  let key := candidate ++ delegator in
  let dt := trie_delete key dt in
  let v := default [] (trie_get delegator vt) in
  let vt := if bool_decide (v = candidate) then trie_delete delegator vt else vt in
  (dt, vt).

Definition KickoutCandidate (candidate : bytes) (d : Tries) : Tries * option DposErr :=
  let ct := trie_delete candidate (candidateTrie d) in
  let entries := prefix_iter candidate (delegateTrie d) in
  let '(dt, vt) := foldl (kickout_step candidate) (delegateTrie d, voteTrie d) entries in
  (set_delegate_vote dt vt (set_candidate ct d), None).

Definition Delegate (delegator candidate : bytes) (d : Tries) : Tries * option DposErr :=
  match trie_get candidate (candidateTrie d) with
  | None => (d, Some ErrInvalidCandidateToDelegate)
  | Some _ =>
      let dt := match trie_get delegator (voteTrie d) with
                | Some oldCandidate => trie_delete (oldCandidate ++ delegator) (delegateTrie d)
                | None => delegateTrie d
                end in
      let dt := trie_update (candidate ++ delegator) delegator dt in
      let vt := trie_update delegator candidate (voteTrie d) in
      (set_delegate_vote dt vt d, None)
  end.

Definition UnDelegate (delegator candidate : bytes) (d : Tries) : Tries * option DposErr :=
  match trie_get candidate (candidateTrie d) with
  | None => (d, Some ErrInvalidCandidateToUnDelegate)
  | Some _ =>
      let oldCandidate := default [] (trie_get delegator (voteTrie d)) in
      if bool_decide (candidate = oldCandidate) then
        let dt := trie_delete (candidate ++ delegator) (delegateTrie d) in
        let vt := trie_delete delegator (voteTrie d) in
        (set_delegate_vote dt vt d, None)
      else (d, Some ErrMismatchCandidateToUnDelegate)
  end.

(** Sequences of voting operations. *)
Inductive VoteOp :=
| OpBecomeCandidate (c : bytes)
| OpKickoutCandidate (c : bytes)
| OpDelegate (v c : bytes)
| OpUnDelegate (v c : bytes).

Definition vote_op_ok (o : VoteOp) : Prop :=
  match o with
  | OpBecomeCandidate c | OpKickoutCandidate c => addr_ok c
  | OpDelegate v c | OpUnDelegate v c => addr_ok v /\ addr_ok c
  end.

Definition apply_vote_op (o : VoteOp) (d : Tries) : Tries :=
  fst (match o with
       | OpBecomeCandidate c => BecomeCandidate c d
       | OpKickoutCandidate c => KickoutCandidate c d
       | OpDelegate v c => Delegate v c d
       | OpUnDelegate v c => UnDelegate v c d
       end).

Definition run_vote_ops (os : list VoteOp) (d : Tries) : Tries :=
  foldl (fun d o => apply_vote_op o d) d os.

(** The multiset [{(C, V) | delegate[C ‖ V] exists}] and the multiset
    [{(vote[V], V) | vote[V] exists}]. *)
Definition delegate_pairs (d : Tries) : list (bytes * bytes) :=
  (fun kv : bytes * bytes => (take 20 kv.1, drop 20 kv.1)) <$> map_to_list (delegateTrie d).

Definition vote_pairs (d : Tries) : list (bytes * bytes) :=
  (fun kv : bytes * bytes => (kv.2, kv.1)) <$> map_to_list (voteTrie d).

(** The vote/delegate invariant: every delegate row is [C ‖ V ↦ V] for two
    addresses, every vote row is between two addresses, and the two tries
    describe the same relation. *)
Definition vote_inv (d : Tries) : Prop :=
  (forall k v, delegateTrie d !! k = Some v -> exists c, addr_ok c /\ addr_ok v /\ k = c ++ v) /\
  (forall v c, voteTrie d !! v = Some c -> addr_ok v /\ addr_ok c) /\
  (forall c v, addr_ok c -> addr_ok v ->
     delegateTrie d !! (c ++ v) = Some v <-> voteTrie d !! v = Some c).

(** Concrete addresses used by the witnesses. *)
Definition addrA : bytes := repeat Byte.x01 20.
Definition addrB : bytes := repeat Byte.x02 20.
Definition addrV1 : bytes := repeat Byte.x03 20.
Definition addrV2 : bytes := repeat Byte.x04 20.

(* ------------------------------------------------------------------ *)
(** ** Trie handles: [DposContext] as five pointers into a heap *)

(** The Go [DposContext] holds five [*trie.Trie] pointers; [Copy] copies
    each pointed-to [Trie] value into a fresh object.  The heap maps
    pointers to trie values; [next_ptr] is the next fresh address. *)
Record Heap := { cells : gmap nat trie; next_ptr : nat }.

Record DposContext := {
  epochP : nat; delegateP : nat; voteP : nat; candidateP : nat; mintCntP : nat;
  dbP : option nat   (* the [*trie.Database]; [None] is [nil] *)
}.

Inductive TrieName := TEpoch | TDelegate | TVote | TCandidate | TMintCnt.

Definition ptrs (d : DposContext) : list nat :=
  [epochP d; delegateP d; voteP d; candidateP d; mintCntP d].

Definition deref (h : Heap) (p : nat) : option trie := cells h !! p.

Definition alloc (t : trie) (h : Heap) : Heap * nat :=
  ({| cells := <[next_ptr h := t]> (cells h); next_ptr := S (next_ptr h) |}, next_ptr h).

(** Dereferencing the five handles ([None]: a nil pointer). *)
Definition load_tries (h : Heap) (d : DposContext) : option Tries :=
  e ← deref h (epochP d);
  dl ← deref h (delegateP d);
  v ← deref h (voteP d);
  c ← deref h (candidateP d);
  m ← deref h (mintCntP d);
  Some {| epochTrie := e; delegateTrie := dl; voteTrie := v;
          candidateTrie := c; mintCntTrie := m |}.

(** Writing the tries back through the five handles (the methods mutate
    the pointed-to tries in place). *)
Definition store_tries (t : Tries) (d : DposContext) (h : Heap) : Heap :=
  {| cells := <[mintCntP d := mintCntTrie t]> (<[candidateP d := candidateTrie t]>
               (<[voteP d := voteTrie t]> (<[delegateP d := delegateTrie t]>
               (<[epochP d := epochTrie t]> (cells h)))));
     next_ptr := next_ptr h |}.

(** [Copy]: [epochTrie := *d.epochTrie] and so on, each into a new object;
    the copy's [db] is left nil. *)
Definition Copy (h : Heap) (d : DposContext) : option (Heap * DposContext) :=
  t ← load_tries h d;
  let '(h, pe) := alloc (epochTrie t) h in
  let '(h, pd) := alloc (delegateTrie t) h in
  let '(h, pv) := alloc (voteTrie t) h in
  let '(h, pc) := alloc (candidateTrie t) h in
  let '(h, pm) := alloc (mintCntTrie t) h in
  Some (h, {| epochP := pe; delegateP := pd; voteP := pv; candidateP := pc;
              mintCntP := pm; dbP := None |}).

Definition Snapshot (h : Heap) (d : DposContext) : option (Heap * DposContext) := Copy h d.

Definition RevertToSnapShot (d snapshot : DposContext) : DposContext :=
  {| epochP := epochP snapshot; delegateP := delegateP snapshot; voteP := voteP snapshot;
     candidateP := candidateP snapshot; mintCntP := mintCntP snapshot; dbP := dbP d |}.

Section RootDigest.
(** [trie.Hash()] and [Keccak256(rlp(h1) ‖ ... ‖ rlp(h5))] are external. *)
Context {Hash : Type} (trie_hash : trie -> Hash)
        (keccak_roots : Hash -> Hash -> Hash -> Hash -> Hash -> Hash).

(** [DposContext.Root]: epoch, delegate, candidate, vote, mintCnt. *)
Definition Root (h : Heap) (d : DposContext) : option Hash :=
  t ← load_tries h d;
  Some (keccak_roots (trie_hash (epochTrie t)) (trie_hash (delegateTrie t))
          (trie_hash (candidateTrie t)) (trie_hash (voteTrie t))
          (trie_hash (mintCntTrie t))).
End RootDigest.

Definition tries_update (n : TrieName) (k v : bytes) (t : Tries) : Tries :=
  match n with
  | TEpoch => set_epoch (trie_update k v (epochTrie t)) t
  | TDelegate => set_delegate_vote (trie_update k v (delegateTrie t)) (voteTrie t) t
  | TVote => set_delegate_vote (delegateTrie t) (trie_update k v (voteTrie t)) t
  | TCandidate => set_candidate (trie_update k v (candidateTrie t)) t
  | TMintCnt => set_mintCnt (trie_update k v (mintCntTrie t)) t
  end.

Definition set_ptr (n : TrieName) (p : nat) (d : DposContext) : DposContext :=
  match n with
  | TEpoch => {| epochP := p; delegateP := delegateP d; voteP := voteP d;
                 candidateP := candidateP d; mintCntP := mintCntP d; dbP := dbP d |}
  | TDelegate => {| epochP := epochP d; delegateP := p; voteP := voteP d;
                    candidateP := candidateP d; mintCntP := mintCntP d; dbP := dbP d |}
  | TVote => {| epochP := epochP d; delegateP := delegateP d; voteP := p;
                candidateP := candidateP d; mintCntP := mintCntP d; dbP := dbP d |}
  | TCandidate => {| epochP := epochP d; delegateP := delegateP d; voteP := voteP d;
                     candidateP := p; mintCntP := mintCntP d; dbP := dbP d |}
  | TMintCnt => {| epochP := epochP d; delegateP := delegateP d; voteP := voteP d;
                   candidateP := candidateP d; mintCntP := p; dbP := dbP d |}
  end.

(** Mutations of a context: a voting operation, a [TryUpdate] on one of
    its tries, or [SetEpoch]/[SetDelegate]/... (and [FromProto]) with a
    newly opened trie. *)
Inductive Mutation :=
| MVote (o : VoteOp)
| MTryUpdate (n : TrieName) (k v : bytes)
| MSetTrie (n : TrieName) (t : trie).

Definition apply_mutation (m : Mutation) (h : Heap) (d : DposContext)
  : option (Heap * DposContext) :=
  match m with
  | MVote o => t ← load_tries h d; Some (store_tries (apply_vote_op o t) d h, d)
  | MTryUpdate n k v => t ← load_tries h d; Some (store_tries (tries_update n k v t) d h, d)
  | MSetTrie n t => let '(h', p) := alloc t h in Some (h', set_ptr n p d)
  end.

Fixpoint run_mutations (ms : list Mutation) (h : Heap) (d : DposContext)
  : option (Heap * DposContext) :=
  match ms with
  | [] => Some (h, d)
  | m :: ms => '(h', d') ← apply_mutation m h d; run_mutations ms h' d'
  end.

(** A context whose five handles point to allocated tries of a heap whose
    allocated addresses are below [next_ptr]. *)
Definition ctx_wf (h : Heap) (d : DposContext) : Prop :=
  (forall p, p ∈ ptrs d -> is_Some (cells h !! p)) /\
  (forall p, is_Some (cells h !! p) -> p < next_ptr h).

(** A heap holding five empty tries at addresses 0..4, and a context on
    them (used by the witnesses). *)
Definition heap0 : Heap :=
  {| cells := <[4 := ∅]> (<[3 := ∅]> (<[2 := ∅]> (<[1 := ∅]> (<[0 := ∅]> ∅))));
     next_ptr := 5 |}.

Definition ctx0 : DposContext :=
  {| epochP := 0; delegateP := 1; voteP := 2; candidateP := 3; mintCntP := 4; dbP := Some 0 |}.

(* ------------------------------------------------------------------ *)
(** ** [Commit] *)

Record DposContextProto := {
  EpochHash : bytes; DelegateHash : bytes; CandidateHash : bytes;
  VoteHash : bytes; MintCntHash : bytes
}.

(** Observable steps of [Commit]: a trie's [Commit(nil)] returning its
    root, and [d.db.Commit(root, true)] flushing the root of a trie. *)
Inductive CommitEvent :=
| TrieCommitted (n : TrieName) (root : bytes)
| RootFlushed (n : TrieName) (root : bytes).

Definition committed_names (ev : list CommitEvent) : list TrieName :=
  omap (fun e => match e with TrieCommitted n _ => Some n | _ => None end) ev.

Definition flushed_names (ev : list CommitEvent) : list TrieName :=
  omap (fun e => match e with RootFlushed n _ => Some n | _ => None end) ev.

(** [trie.TryUpdate(root[:], trie.Get(root[:]))]. *)
Definition self_update (root : bytes) (t : trie) : trie :=
  trie_update root (default [] (trie_get root t)) t.

Section CommitSec.
(** [trie.Commit(nil)] of the trie package: the root, or an error. *)
Context (trie_commit : trie -> option bytes).

Definition Commit (t : Tries) : list CommitEvent * option (Tries * DposContextProto) :=
  match trie_commit (epochTrie t) with
  | None => ([], None)
  | Some epochRoot =>
  let et := self_update epochRoot (epochTrie t) in
  match trie_commit (delegateTrie t) with
  | None => ([TrieCommitted TEpoch epochRoot], None)
  | Some delegateRoot =>
  let dt := self_update delegateRoot (delegateTrie t) in
  match trie_commit (voteTrie t) with
  | None => ([TrieCommitted TEpoch epochRoot; TrieCommitted TDelegate delegateRoot], None)
  | Some voteRoot =>
  let vt := self_update voteRoot (voteTrie t) in
  match trie_commit (candidateTrie t) with
  | None => ([TrieCommitted TEpoch epochRoot; TrieCommitted TDelegate delegateRoot;
              TrieCommitted TVote voteRoot], None)
  | Some candidateRoot =>
  let ct := self_update candidateRoot (candidateTrie t) in
  match trie_commit (mintCntTrie t) with
  | None => ([TrieCommitted TEpoch epochRoot; TrieCommitted TDelegate delegateRoot;
              TrieCommitted TVote voteRoot; TrieCommitted TCandidate candidateRoot], None)
  | Some mintCntRoot =>
  let mt := self_update mintCntRoot (mintCntTrie t) in
  ([TrieCommitted TEpoch epochRoot; TrieCommitted TDelegate delegateRoot;
    TrieCommitted TVote voteRoot; TrieCommitted TCandidate candidateRoot;
    TrieCommitted TMintCnt mintCntRoot;
    RootFlushed TEpoch epochRoot; RootFlushed TDelegate delegateRoot;
    RootFlushed TCandidate candidateRoot; RootFlushed TVote voteRoot;
    RootFlushed TMintCnt mintCntRoot],
   Some ({| epochTrie := et; delegateTrie := dt; voteTrie := vt;
            candidateTrie := ct; mintCntTrie := mt |},
         {| EpochHash := epochRoot; DelegateHash := delegateRoot;
            VoteHash := voteRoot; CandidateHash := candidateRoot;
            MintCntHash := mintCntRoot |}))
  end end end end end.
End CommitSec.

(* ------------------------------------------------------------------ *)
(** ** Go integers *)

Open Scope Z_scope.

(** Two's-complement wrap of a mathematical integer to [int64]; also the
    conversion [int64(u)] of a [uint64] [u]. *)
Definition wrap64 (z : Z) : Z := (z + 2^63) mod 2^64 - 2^63.

(** [uint64(z)] of an [int64] [z]. *)
Definition to_u64 (z : Z) : Z := z mod 2^64.

(** Go's [a / b] on [int64]: truncating, a run-time panic ([None]) on a
    zero divisor, and [MinInt64 / -1] wrapping. *)
Definition div64 (a b : Z) : option Z :=
  if b =? 0 then None else Some (wrap64 (Z.quot a b)).

(* ------------------------------------------------------------------ *)
(** ** Slot scheduler ([PrevSlot], [NextSlot]) *)

Definition PrevSlot (now : Z) (blockInterval : Z) : option Z :=
  let bi := wrap64 blockInterval in
  match div64 (wrap64 (now - 1)) bi with
  | Some q => Some (wrap64 (q * bi))
  | None => None
  end.

Definition NextSlot (now : Z) (blockInterval : Z) : option Z :=
  let bi := wrap64 blockInterval in
  match div64 (wrap64 (wrap64 (now + bi) - 1)) bi with
  | Some q => Some (wrap64 (q * bi))
  | None => None
  end.

(* ------------------------------------------------------------------ *)
(** ** Headers and seal verification *)

(** The fields of [types.Header] that the engine reads. *)
Record Header := {
  Number : Z;
  Time : Z;
  Validator : bytes;
  ParentHash : bytes;
  MaxValidatorSize : Z
}.

(** [bytes.Compare]: lexicographic order, a proper prefix first. *)
Fixpoint bytes_compare (a b : bytes) : comparison :=
  match a, b with
  | [], [] => Eq
  | [], _ :: _ => Lt
  | _ :: _, [] => Gt
  | x :: a', y :: b' =>
      match N.compare (Byte.to_N x) (Byte.to_N y) with
      | Eq => bytes_compare a' b'
      | c => c
      end
  end.

Inductive SealErr :=
| errUnknownBlock
| ErrInvalidBlockValidator
| ErrMismatchSignerAndValidator
| ErrNilBlockHeader
| ErrRecover
| ErrLookupValidator
| ErrStore.

Section Seal.
(** [ecrecover(header, sigcache)]: the signer recovered from the seal. *)
Context (ecrecover : Header -> option bytes).

Definition verifyBlockSigner (validator : bytes) (header : Header) : option SealErr :=
  match ecrecover header with
  | None => Some ErrRecover
  | Some signer =>
      if negb (bool_decide (bytes_compare signer validator = Eq))
      then Some ErrInvalidBlockValidator
      else if negb (bool_decide (bytes_compare signer (Validator header) = Eq))
      then Some ErrMismatchSignerAndValidator
      else None
  end.

(** [lookupValidator] of the parent's epoch context at the header's time,
    and the outcome of the final [updateConfirmedBlockHeader]. *)
Context (lookupValidator : Z -> option bytes) (updateConfirmed : option SealErr).

Definition verifySeal (header : Header) : option SealErr :=
  if Number header =? 0 then Some errUnknownBlock
  else match lookupValidator (Time header) with
       | None => Some ErrLookupValidator
       | Some validator =>
           match verifyBlockSigner validator header with
           | Some e => Some e
           | None => updateConfirmed
           end
       end.
End Seal.

(* ------------------------------------------------------------------ *)
(** ** Mint counter ([updateMintCnt]) *)

Definition epochInterval : Z := 86400.

Definition byte_of_Z (z : Z) : Byte.byte :=
  default Byte.x00 (Byte.of_N (Z.to_N (z mod 256))).

(** [binary.BigEndian.PutUint64(b, uint64(z))]. *)
Definition be64 (z : Z) : bytes :=
  let u := to_u64 z in
  map (fun i => byte_of_Z (Z.shiftr u (8 * (7 - Z.of_nat i)))) (seq 0 8).

(** [binary.BigEndian.Uint64(b)]: reads [b[0..8]], panics on a shorter
    slice. *)
Definition be64_decode (b : bytes) : option Z :=
  if (length b <? 8)%nat then None
  else Some (fold_left (fun acc x => acc * 256 + Z.of_N (Byte.to_N x)) (take 8 b) 0).

(** [iter.Next()] of [trie.NewIterator(t.NodeIterator(start))]: the
    iterator is positioned at [start] and yields a leaf iff some key is
    [>= start]. *)
Definition iter_next_from (start : bytes) (t : trie) : bool :=
  existsb (fun kv => negb (bool_decide (bytes_compare kv.1 start = Lt))) (map_to_list t).

Definition updateMintCnt (parentBlockTime currentBlockTime : Z) (validator : bytes)
    (mintCnt : trie) : option trie :=
  let currentEpoch := Z.quot parentBlockTime epochInterval in
  let currentEpochBytes := be64 currentEpoch in
  let newEpoch := Z.quot currentBlockTime epochInterval in
  let cnt :=
    if currentEpoch =? newEpoch then
      if iter_next_from currentEpochBytes mintCnt then
        match trie_get (currentEpochBytes ++ validator) mintCnt with
        | Some cntBytes =>
            match be64_decode cntBytes with
            | Some u => Some (wrap64 (wrap64 u + 1))
            | None => None
            end
        | None => Some 1
        end
      else Some 1
    else Some 1 in
  match cnt with
  | None => None
  | Some c => Some (trie_update (be64 newEpoch ++ validator) (be64 c) mintCnt)
  end.

Close Scope Z_scope.

(* ------------------------------------------------------------------ *)
(** ** Confirmation tracker ([updateConfirmedBlockHeader]) *)

Open Scope Z_scope.

(** [validatorMap[v] = true] on a [map[common.Address]bool]; its [len] is
    the length of the list. *)
Definition add_validator (v : bytes) (W : list bytes) : list bytes :=
  if decide (v ∈ W) then W else v :: W.

(** [x.Uint64()] and [x.Int64()] of a [big.Int] (the header's [Number]
    and [Time]): the low 64 bits of [|x|], read as unsigned; resp. read as
    signed, and negated when [x] is negative. *)
Definition bigUint64 (x : Z) : Z := Z.abs x mod 2^64.

Definition bigInt64 (x : Z) : Z :=
  let v := wrap64 (bigUint64 x) in if x <? 0 then wrap64 (- v) else v.

(** [int(genesisHeader.MaxValidatorSize*2/3+1)].  The field is an unsigned
    64-bit integer (the header is RLP-hashed in [sigHash], and RLP has no
    signed integers): the product and the sum wrap modulo [2^64], the
    division is unsigned, and [int] reads the result as a signed 64-bit
    integer. *)
Definition consensusSize (genesisHeader : Header) : Z :=
  wrap64 (to_u64 (to_u64 (MaxValidatorSize genesisHeader * 2) / 3 + 1)).

(** The errors of [ethdb.Database]: [ErrNotFound] from [Get] on a missing
    key, any other error of the database as [ErrDbOther]. *)
Inductive DbErr := ErrNotFound | ErrDbOther (n : nat).

Section Confirm.
(** [header.Hash()], [chain.GetHeaderByHash] and
    [storeConfirmedBlockHeader] (its error, if any). *)
Context (hash : Header -> bytes) (getHeaderByHash : bytes -> option Header)
        (storeConfirmed : Header -> option DbErr).

(** The [for] loop, on fuel; [genesisHeader] is
    [chain.GetHeaderByNumber(0)], dereferenced (a nil pointer panics) once
    an iteration reaches [consensusSize].  The result is the new
    [d.confirmedBlockHeader], the header persisted (if any) and the error
    returned (if any); [None] is a panic, or a walk longer than the fuel. *)
Fixpoint confirm_loop (fuel : nat) (genesisHeader : option Header) (confirmed cur : Header)
    (epoch : Z) (validatorMap : list bytes)
    : option (Header * option Header * option (DbErr + SealErr)) :=
  match fuel with
  | O => None
  | S f =>
      if negb (bool_decide (hash confirmed = hash cur)) &&
         (bigUint64 (Number confirmed) <? bigUint64 (Number cur))
      then
        let curEpoch := Z.quot (bigInt64 (Time cur)) epochInterval in
        let '(epoch', W1) :=
          if negb (curEpoch =? epoch) then (curEpoch, []) else (epoch, validatorMap) in
        match genesisHeader with
        | None => None
        | Some g =>
            let cs := consensusSize g in
            if wrap64 (bigInt64 (Number cur) - bigInt64 (Number confirmed))
                 <? wrap64 (cs - Z.of_nat (length W1))
            then Some (confirmed, None, None)
            else
              let W2 := add_validator (Validator cur) W1 in
              if cs <=? Z.of_nat (length W2)
              then Some (cur, Some cur, option_map inl (storeConfirmed cur))
              else match getHeaderByHash (ParentHash cur) with
                   | None => Some (confirmed, None, Some (inr ErrNilBlockHeader))
                   | Some parent => confirm_loop f genesisHeader confirmed parent epoch' W2
                   end
        end
      else Some (confirmed, None, None)
  end.

(** [confirmedOpt] is [d.confirmedBlockHeader], [loaded] the result of
    [d.loadConfirmedBlockHeader(chain)], [genesisHeader] the result of
    [chain.GetHeaderByNumber(0)] and [current] the chain's current header.
    The result's first component is the new [d.confirmedBlockHeader]
    ([None]: still nil).  The fuel bounds the walk on a chain whose numbers
    decrease from parent to parent. *)
Definition updateConfirmedBlockHeader (confirmedOpt : option Header)
    (loaded : Header + (DbErr + SealErr)) (genesisHeader : option Header) (current : Header)
    : option (option Header * option Header * option (DbErr + SealErr)) :=
  let start :=
    match confirmedOpt with
    | Some c => inl c
    | None =>
        match loaded with
        | inl header => inl header
        | inr err =>
            match genesisHeader with
            | Some header => inl header
            | None => inr err
            end
        end
    end in
  match start with
  | inr err => Some (None, None, Some err)
  | inl confirmed =>
      match confirm_loop (S (Z.to_nat (bigUint64 (Number current)))) genesisHeader
              confirmed current (-1) [] with
      | Some (c, st, e) => Some (Some c, st, e)
      | None => None
      end
  end.
End Confirm.

(** A test chain: header [n] at time [10 n], parent hash the hash of
    header [n - 1], hashes the big-endian numbers, [max_validator_size = 3]. *)
Definition addrC : bytes := repeat Byte.x05 20.

Definition mk_header (n : Z) (v : bytes) : Header :=
  {| Number := n; Time := 10 * n; Validator := v; ParentHash := be64 (n - 1);
     MaxValidatorSize := 3 |}.

Definition chain_hash (h : Header) : bytes := be64 (Number h).

Definition chain_lookup (hs : list Header) (k : bytes) : option Header :=
  find (fun h => bool_decide (chain_hash h = k)) hs.

Definition genesis_hdr : Header := mk_header 0 [].

Definition chain_ABC : list Header :=
  [genesis_hdr; mk_header 1 addrA; mk_header 2 addrB; mk_header 3 addrC].

Definition chain_AAB : list Header :=
  [genesis_hdr; mk_header 1 addrA; mk_header 2 addrA; mk_header 3 addrB].

(** A 32-byte hash for the test chain. *)
Definition hash32 (h : Header) : bytes := repeat Byte.x00 24 ++ be64 (Number h).

Close Scope Z_scope.

(* ------------------------------------------------------------------ *)
(** ** Validator list ([GetValidators], [SetValidators]) *)

(** Modelled from the spec: the [rlp] package (not among the given
    sources) encodes a [[]common.Address] as an RLP list of 20-byte
    strings.  Each address is the header byte [0x80 + 20 = 0x94] followed by
    its bytes; the list header is [0xc0 + len] for a payload of at most 55
    bytes, otherwise [0xf7 + |len|] followed by [len] in minimal big-endian.
    [rlp.DecodeBytes] into [[]common.Address] rejects empty input, a
    non-list, a non-canonical size, an element that is not a 20-byte string
    and trailing bytes. *)
Definition byte_of_N (n : N) : Byte.byte := default Byte.x00 (Byte.of_N n).

Fixpoint be_min_aux (fuel : nat) (n : N) : bytes :=
  match fuel with
  | O => []
  | S f => if (n =? 0)%N then [] else be_min_aux f (n / 256) ++ [byte_of_N (n mod 256)]
  end.

(** Minimal big-endian bytes of a 64-bit length. *)
Definition be_min (n : N) : bytes := be_min_aux 8 n.

Definition be_decode (l : bytes) : N :=
  fold_left (fun acc b => acc * 256 + Byte.to_N b)%N l 0%N.

Definition rlp_encode_address (a : bytes) : bytes := Byte.x94 :: a.

Definition rlp_list_header (n : N) : bytes :=
  if (n <=? 55)%N then [byte_of_N (0xc0 + n)]
  else let lb := be_min n in byte_of_N (0xf7 + N.of_nat (length lb)) :: lb.

(** [rlp.EncodeToBytes(validators)]. *)
Definition rlp_encode_addresses (L : list bytes) : bytes :=
  let payload := concat (map rlp_encode_address L) in
  rlp_list_header (N.of_nat (length payload)) ++ payload.

(** The payload of a single RLP list spanning the whole input. *)
Definition rlp_list_payload (bs : bytes) : option bytes :=
  match bs with
  | [] => None
  | b :: rest =>
      let k := Byte.to_N b in
      if (k <? 0xc0)%N then None
      else if (k <=? 0xf7)%N then
        if (N.of_nat (length rest) =? k - 0xc0)%N then Some rest else None
      else
        let ll := N.to_nat (k - 0xf7) in
        let lb := take ll rest in
        if (length lb <? ll)%nat then None
        else match lb with
             | [] => None
             | b0 :: _ =>
                 if bool_decide (b0 = Byte.x00) then None
                 else let len := be_decode lb in
                      if (len <=? 55)%N then None
                      else if (N.of_nat (length (drop ll rest)) =? len)%N
                           then Some (drop ll rest) else None
             end
  end.

(** The elements of a list payload, each a 20-byte string. *)
Fixpoint rlp_decode_address_items (fuel : nat) (p : bytes) : option (list bytes) :=
  match fuel with
  | O => None
  | S f =>
      match p with
      | [] => Some []
      | b :: rest =>
          if bool_decide (b = Byte.x94) && (20 <=? length rest)%nat then
            match rlp_decode_address_items f (drop 20 rest) with
            | Some l => Some (take 20 rest :: l)
            | None => None
            end
          else None
      end
  end.

(** [rlp.DecodeBytes(b, &validators)]; [None] is the decoding error. *)
Definition rlp_decode_addresses (bs : bytes) : option (list bytes) :=
  match rlp_list_payload bs with
  | Some p => rlp_decode_address_items (S (length p)) p
  | None => None
  end.

(** [[]byte("validator")]. *)
Definition validator_key : bytes :=
  [Byte.x76; Byte.x61; Byte.x6c; Byte.x69; Byte.x64; Byte.x61; Byte.x74; Byte.x6f; Byte.x72].

(** [NewDposContext]: all five tries at the empty root. *)
Definition NewDposContext : Tries := empty_tries.

(** [GetValidators]: [Get] answers [nil] for an absent key. *)
Definition GetValidators (d : Tries) : option (list bytes) :=
  rlp_decode_addresses (default [] (trie_get validator_key (epochTrie d))).

(** [SetValidators]: the encoding of an address list never fails. *)
Definition SetValidators (validators : list bytes) (d : Tries) : Tries :=
  set_epoch (trie_update validator_key (rlp_encode_addresses validators) (epochTrie d)) d.

(* ------------------------------------------------------------------ *)
(** ** [ToProto], [DposContextProto.Root] *)

(** [DposContext.ToProto]: the five trie hashes ([trie.Hash()]). *)
Definition ToProto (trie_hash : trie -> bytes) (h : Heap) (d : DposContext)
    : option DposContextProto :=
  t ← load_tries h d;
  Some {| EpochHash := trie_hash (epochTrie t); DelegateHash := trie_hash (delegateTrie t);
          CandidateHash := trie_hash (candidateTrie t); VoteHash := trie_hash (voteTrie t);
          MintCntHash := trie_hash (mintCntTrie t) |}.

(** [DposContextProto.Root]: [Keccak256] of the five hashes in the order
    epoch, delegate, candidate, vote, mintCnt. *)
Definition ProtoRoot (keccak_roots : bytes -> bytes -> bytes -> bytes -> bytes -> bytes)
    (p : DposContextProto) : bytes :=
  keccak_roots (EpochHash p) (DelegateHash p) (CandidateHash p) (VoteHash p) (MintCntHash p).

(** The trie of a context named by a [TrieName], and the order in which
    [Commit] commits them. *)
Definition trie_of (n : TrieName) (t : Tries) : trie :=
  match n with
  | TEpoch => epochTrie t
  | TDelegate => delegateTrie t
  | TVote => voteTrie t
  | TCandidate => candidateTrie t
  | TMintCnt => mintCntTrie t
  end.

Definition commit_order : list TrieName := [TEpoch; TDelegate; TVote; TCandidate; TMintCnt].

(** No trie stores an empty value ([TryUpdate] with an empty value
    deletes). *)
Definition tries_nonempty_values (t : Tries) : Prop :=
  forall n, map_Forall (fun _ v => v <> []) (trie_of n t).

(* ------------------------------------------------------------------ *)
(** ** Persisting the confirmed header
    ([loadConfirmedBlockHeader], [storeConfirmedBlockHeader]) *)

(** [confirmedBlockHead = []byte("confirmed-block-head")]. *)
Definition confirmedBlockHead : bytes :=
  [Byte.x63; Byte.x6f; Byte.x6e; Byte.x66; Byte.x69; Byte.x72; Byte.x6d; Byte.x65; Byte.x64; Byte.x2d;
   Byte.x62; Byte.x6c; Byte.x6f; Byte.x63; Byte.x6b; Byte.x2d; Byte.x68; Byte.x65; Byte.x61; Byte.x64].

Section ConfirmStore.
(** [header.Hash()], [chain.GetHeaderByHash] and [common.BytesToHash]. *)
Context (hash : Header -> bytes) (getHeaderByHash : bytes -> option Header)
        (BytesToHash : bytes -> bytes).

Definition loadConfirmedBlockHeader (db : gmap bytes bytes) : Header + (DbErr + SealErr) :=
  match db !! confirmedBlockHead with
  | None => inr (inl ErrNotFound)
  | Some key =>
      match getHeaderByHash (BytesToHash key) with
      | None => inr (inr ErrNilBlockHeader)
      | Some header => inl header
      end
  end.

(** [db.Put(confirmedBlockHead, s.confirmedBlockHeader.Hash().Bytes())],
    on a database whose [Put] succeeds. *)
Definition storeConfirmedBlockHeader (db : gmap bytes bytes) (confirmed : Header)
    : gmap bytes bytes :=
  <[confirmedBlockHead := hash confirmed]> db.
End ConfirmStore.

(* ------------------------------------------------------------------ *)
(** ** Block production and header checks of the engine
    ([Prepare], [verifyHeader], [checkDeadline], [CheckValidator],
    [Seal], [sigHash], [ecrecover]) *)

Module Engine.

Open Scope Z_scope.

Definition extraVanity : nat := 32.
Definition extraSeal : nat := 65.

Inductive EngineErr :=
| errUnknownBlock
| errMissingVanity
| errMissingSignature
| errInvalidMixDigest
| errInvalidDifficulty
| errInvalidUncleHash
| ErrFutureBlock
| ErrUnknownAncestor
| ErrInvalidTimestamp
| ErrWaitForPrevBlock
| ErrMintFutureBlock
| ErrInvalidBlockValidator
(** an error returned by code outside this package, by its code *)
| ErrExternal (n : nat).

(** The fields of [types.Header] these functions read or write; [Number]
    is a [*big.Int] and may be [nil]. *)
Record Header := {
  ParentHash : bytes;
  UncleHash : bytes;
  Validator : bytes;
  Difficulty : Z;
  Number : option Z;
  Time : Z;
  Extra : bytes;
  MixDigest : bytes;
  Nonce : bytes
}.

Definition set_Nonce (h : Header) (n : bytes) : Header :=
  {| ParentHash := ParentHash h; UncleHash := UncleHash h; Validator := Validator h;
     Difficulty := Difficulty h; Number := Number h; Time := Time h; Extra := Extra h;
     MixDigest := MixDigest h; Nonce := n |}.

Definition set_Extra (h : Header) (e : bytes) : Header :=
  {| ParentHash := ParentHash h; UncleHash := UncleHash h; Validator := Validator h;
     Difficulty := Difficulty h; Number := Number h; Time := Time h; Extra := e;
     MixDigest := MixDigest h; Nonce := Nonce h |}.

Definition set_Difficulty (h : Header) (d : Z) : Header :=
  {| ParentHash := ParentHash h; UncleHash := UncleHash h; Validator := Validator h;
     Difficulty := d; Number := Number h; Time := Time h; Extra := Extra h;
     MixDigest := MixDigest h; Nonce := Nonce h |}.

Definition set_Validator (h : Header) (v : bytes) : Header :=
  {| ParentHash := ParentHash h; UncleHash := UncleHash h; Validator := v;
     Difficulty := Difficulty h; Number := Number h; Time := Time h; Extra := Extra h;
     MixDigest := MixDigest h; Nonce := Nonce h |}.

Definition zeros (n : nat) : bytes := repeat Byte.x00 n.

(** [common.Hash{}] and [common.Address{}]. *)
Definition zeroHash : bytes := zeros 32.
Definition zeroAddress : bytes := zeros 20.

(** [CalcDifficulty]. *)
Definition CalcDifficulty (time : Z) (parent : Header) : Z := 1.

Section Chain.
(** [chain.GetHeader(hash, number)]. *)
Context (getHeader : bytes -> Z -> option Header).

(** [Prepare]: [None] is the run-time panic of [header.Number.Uint64()]
    on a [nil] number.  The header is returned together with the error,
    as the caller's [*types.Header] holds it afterwards. *)
Definition Prepare (signer : bytes) (header : Header) : option (Header * option EngineErr) :=
  let header := set_Nonce header (zeros 8) in
  match Number header with
  | None => None
  | Some n =>
      let number := to_u64 n in
      let extra :=
        if (length (Extra header) <? extraVanity)%nat
        then Extra header ++ repeat Byte.x00 (extraVanity - length (Extra header))
        else Extra header in
      let extra := take extraVanity extra in
      let extra := extra ++ zeros extraSeal in
      let header := set_Extra header extra in
      match getHeader (ParentHash header) (to_u64 (number - 1)) with
      | None => Some (header, Some ErrUnknownAncestor)
      | Some parent =>
          let header := set_Difficulty header
                          (CalcDifficulty (to_u64 (Time header)) parent) in
          let header := set_Validator header signer in
          Some (header, None)
      end
  end.

(** [header.Hash()], [types.CalcUncleHash(nil)] and
    [misc.VerifyForkHashes(chain.Config(), header, false)]. *)
Context (hashH : Header -> bytes) (uncleHash : bytes)
        (verifyForkHashes : Header -> option nat).

(** [verifyHeader] at wall-clock time [now]: [None] is the run-time panic
    of [parent.Number.Uint64()] on a parent whose number is [nil];
    [big.Int.Uint64] is taken modulo [2^64]. *)
Definition verifyHeader (now : Z) (parents : list Header) (blockInterval : Z)
    (header : Header) : option (option EngineErr) :=
  match Number header with
  | None => Some (Some errUnknownBlock)
  | Some n =>
      let number := to_u64 n in
      if now <? Time header then Some (Some ErrFutureBlock)
      else if (length (Extra header) <? extraVanity)%nat then Some (Some errMissingVanity)
      else if (length (Extra header) <? extraVanity + extraSeal)%nat
      then Some (Some errMissingSignature)
      else if negb (bool_decide (MixDigest header = zeroHash))
      then Some (Some errInvalidMixDigest)
      else if negb (to_u64 (Difficulty header) =? 1) then Some (Some errInvalidDifficulty)
      else if negb (bool_decide (UncleHash header = uncleHash))
      then Some (Some errInvalidUncleHash)
      else match verifyForkHashes header with
      | Some err => Some (Some (ErrExternal err))
      | None =>
          let parent :=
            match last parents with
            | Some p => Some p
            | None => getHeader (ParentHash header) (to_u64 (number - 1))
            end in
          match parent with
          | None => Some (Some ErrUnknownAncestor)
          | Some parent =>
              match Number parent with
              | None => None
              | Some pn =>
                  if negb (to_u64 pn =? to_u64 (number - 1))
                     || negb (bool_decide (hashH parent = ParentHash header))
                  then Some (Some ErrUnknownAncestor)
                  else if to_u64 (Time header) <? to_u64 (to_u64 (Time parent) + blockInterval)
                  then Some (Some ErrInvalidTimestamp)
                  else Some None
              end
          end
      end
  end.
End Chain.

(** [checkDeadline], with the last block's time as an [int64]: [None] is
    the run-time panic of a zero block interval. *)
Definition checkDeadline (lastTime now blockInterval : Z) : option (option EngineErr) :=
  match PrevSlot now blockInterval, NextSlot now blockInterval with
  | Some prevSlot, Some nextSlot =>
      if nextSlot <=? lastTime then Some (Some ErrMintFutureBlock)
      else if (lastTime =? prevSlot) || (wrap64 (nextSlot - now) <=? 1) then Some None
      else Some (Some ErrWaitForPrevBlock)
  | _, _ => None
  end.

(** [CheckValidator]; [lookupValidator now blockInterval] stands for
    [NewDposContextFromProto] of the last block's context followed by
    [epochContext.lookupValidator(now, blockInterval)], with the error of
    either. *)
Definition CheckValidator (lookupValidator : Z -> Z -> bytes + nat)
    (signer : bytes) (lastTime now blockInterval : Z) : option (option EngineErr) :=
  match checkDeadline lastTime now blockInterval with
  | None => None
  | Some (Some err) => Some (Some err)
  | Some None =>
      match lookupValidator now blockInterval with
      | inr err => Some (Some (ErrExternal err))
      | inl validator =>
          if bool_decide (validator = zeroAddress)
             || negb (bool_decide (bytes_compare validator signer = Eq))
          then Some (Some ErrInvalidBlockValidator)
          else Some None
      end
  end.

Section Signing.
(** Keccak-256 of the RLP list [sigHash] builds: the header's fields, its
    [Extra] being the one of the header given. *)
Context (rlpHash : Header -> bytes).

(** [sigHash]: [None] is the panic on an [Extra] shorter than 65 bytes. *)
Definition sigHash (header : Header) : option bytes :=
  if (length (Extra header) <? 65)%nat then None
  else Some (rlpHash (set_Extra header (take (length (Extra header) - 65) (Extra header)))).

(** [copy(dst[k:], src)] with [k = len(dst) - extraSeal]. *)
Definition copy_seal (extra sighash : bytes) : bytes :=
  let k := (length extra - extraSeal)%nat in
  let dst := drop k extra in
  let m := Nat.min (length dst) (length sighash) in
  take k extra ++ take m sighash ++ drop m dst.

(** [Seal]: [stopped] says whether [stop] fires during the wait of a
    positive delay; [signFn] is [d.signFn] for the local signer.  The
    result is the sealed header (if any) and the error; [None] is a
    run-time panic.  [block.Header()] returns a copy, so the time set
    after the wait does not reach [header]. *)
Definition Seal (signFn : bytes -> bytes + nat) (stopped : bool)
    (now blockInterval : Z) (header : Header) : option (option Header * option EngineErr) :=
  match Number header with
  | None => None
  | Some n =>
      if to_u64 n =? 0 then Some (None, Some errUnknownBlock)
      else match NextSlot now blockInterval with
      | None => None
      | Some nextSlot =>
          let delay := wrap64 (nextSlot - now) in
          if (0 <? delay) && stopped then Some (None, None)
          else match sigHash header with
          | None => None
          | Some h =>
              match signFn h with
              | inr err => Some (None, Some (ErrExternal err))
              | inl sighash =>
                  Some (Some (set_Extra header (copy_seal (Extra header) sighash)), None)
              end
          end
      end
  end.

(** [ecrecover] on a miss of the signature cache; [recover h sig] is
    [crypto.Ecrecover] followed by the address derivation. *)
Definition ecrecover (recover : bytes -> bytes -> bytes + nat) (header : Header)
    : option (bytes + EngineErr) :=
  if (length (Extra header) <? extraSeal)%nat then Some (inr errMissingSignature)
  else
    let signature := drop (length (Extra header) - extraSeal) (Extra header) in
    match sigHash header with
    | None => None
    | Some h =>
        match recover h signature with
        | inl signer => Some (inl signer)
        | inr err => Some (inr (ErrExternal err))
        end
    end.
End Signing.

(** Test headers: a parent at number 4 and a child at number 5. *)
Definition prep_parent : Header :=
  {| ParentHash := []; UncleHash := []; Validator := []; Difficulty := 1; Number := Some 4%Z;
     Time := 40; Extra := []; MixDigest := zeroHash; Nonce := [] |}.

Definition prep_header : Header :=
  {| ParentHash := addrC; UncleHash := []; Validator := addrB; Difficulty := 7; Number := Some 5%Z;
     Time := 50; Extra := [Byte.x01; Byte.x02]; MixDigest := zeroHash; Nonce := [Byte.x09] |}.

Close Scope Z_scope.
End Engine.

(* ================================================================== *)
(** * Proofs *)

(* ------------------------------------------------------------------ *)
(** ** Lemmas on tries and keys *)

Lemma addr_ok_nil_false : ~ addr_ok [].
Proof. unfold addr_ok; simpl; lia. Qed.

Lemma trie_update_ne_nil k v t : v <> [] -> trie_update k v t = <[k := v]> t.
Proof. destruct v; [congruence | reflexivity]. Qed.

Lemma trie_update_addr k v t : addr_ok v -> trie_update k v t = <[k := v]> t.
Proof.
  intros Hv. apply trie_update_ne_nil. intros ->. exact (addr_ok_nil_false Hv).
Qed.

Lemma key_split c1 v1 c2 v2 :
  addr_ok c1 -> addr_ok c2 -> c1 ++ v1 = c2 ++ v2 -> c1 = c2 /\ v1 = v2.
Proof. unfold addr_ok. intros H1 H2 He. apply app_inj_1; [lia | exact He]. Qed.

Lemma key_ne_l c1 v1 c2 v2 :
  addr_ok c1 -> addr_ok c2 -> c1 <> c2 -> c1 ++ v1 <> c2 ++ v2.
Proof. intros H1 H2 Hne He. apply Hne. by apply (key_split c1 v1 c2 v2). Qed.

Lemma key_ne_r c1 v1 c2 v2 :
  addr_ok c1 -> addr_ok c2 -> v1 <> v2 -> c1 ++ v1 <> c2 ++ v2.
Proof. intros H1 H2 Hne He. apply Hne. by apply (key_split c1 v1 c2 v2). Qed.

Lemma prefix_addr c1 c2 v : addr_ok c1 -> addr_ok c2 -> c1 `prefix_of` c2 ++ v -> c1 = c2.
Proof.
  intros H1 H2 [w Hw].
  apply (key_split c2 v c1 w) in Hw; [symmetry; tauto | exact H2 | exact H1].
Qed.

Lemma elem_of_prefix_iter p t e :
  e ∈ prefix_iter p t <-> t !! e.1 = Some e.2 /\ p `prefix_of` e.1.
Proof.
  destruct e as [k v]. unfold prefix_iter. rewrite elem_of_map_to_list.
  rewrite map_lookup_filter_Some. simpl. tauto.
Qed.

(* ------------------------------------------------------------------ *)
(** ** The loop of [KickoutCandidate] *)

Lemma kickout_fold A (L : list (bytes * bytes)) dt vt :
  let r := foldl (kickout_step A) (dt, vt) L in
  (forall k, (exists e, e ∈ L /\ k = A ++ e.2) -> r.1 !! k = None) /\
  (forall k, (forall e, e ∈ L -> k <> A ++ e.2) -> r.1 !! k = dt !! k) /\
  (forall v, (exists e, e ∈ L /\ e.2 = v) -> vt !! v = Some A -> r.2 !! v = None) /\
  (forall v, vt !! v <> Some A -> r.2 !! v = vt !! v) /\
  (forall v, (forall e, e ∈ L -> e.2 <> v) -> r.2 !! v = vt !! v).
Proof.
  revert dt vt. induction L as [|e0 L IH]; intros dt vt; cbn [foldl].
  - repeat split.
    + intros k [e [He _]]. set_solver.
    + intros v [e [He _]]. set_solver.
  - set (dt1 := trie_delete (A ++ e0.2) dt).
    set (vt1 := if bool_decide (default [] (trie_get e0.2 vt) = A)
                then trie_delete e0.2 vt else vt).
    assert (Hvt1 : forall v, vt1 !! v = if bool_decide (v = e0.2 /\ vt !! v = Some A)
                                     then None else vt !! v).
    { intros v. subst vt1. unfold trie_get, trie_delete.
      destruct (vt !! e0.2) as [w|] eqn:Ew; simpl.
      - case_bool_decide as Hw.
        + simpl in Hw. subst w. destruct (decide (v = e0.2)) as [->|Hne].
          * rewrite lookup_delete_eq. rewrite bool_decide_true; auto.
          * rewrite lookup_delete_ne by congruence.
            rewrite bool_decide_false; auto. tauto.
        + rewrite bool_decide_false; auto.
          intros [-> Hv]. congruence.
      - case_bool_decide as Hw.
        + destruct (decide (v = e0.2)) as [->|Hne].
          * rewrite lookup_delete_eq. rewrite Ew. rewrite bool_decide_false; auto.
            intros [_ Hv]. congruence.
          * rewrite lookup_delete_ne by congruence.
            rewrite bool_decide_false; auto. tauto.
        + rewrite bool_decide_false; auto. intros [-> Hv]. congruence. }
    assert (Hstep : kickout_step A (dt, vt) e0 = (dt1, vt1)) by reflexivity.
    rewrite Hstep.
    destruct (IH dt1 vt1) as [IH1 [IH2 [IH3 [IH4 IH5]]]].
    repeat split.
    + intros k [e [He Hk]]. apply elem_of_cons in He as [He|He].
      * subst e. destruct (decide (Exists (fun e => k = A ++ e.2) L)) as [Hex|Hnex].
        { apply IH1. by apply Exists_exists. }
        { rewrite IH2.
          - subst dt1 k. unfold trie_delete. apply lookup_delete_eq.
          - intros e' He' Hk'. apply Hnex, Exists_exists. eauto. }
      * apply IH1. eauto.
    + intros k Hk. rewrite IH2.
      * subst dt1. unfold trie_delete. apply lookup_delete_ne.
        intros Heq. apply (Hk e0); [set_solver | congruence].
      * intros e He. apply Hk. set_solver.
    + intros v [e [He Hv]] HA. apply elem_of_cons in He as [He|He].
      * subst e. assert (H1 : vt1 !! v = None).
        { rewrite Hvt1. rewrite bool_decide_true; auto. }
        rewrite IH4; [exact H1 | congruence].
      * destruct (decide (v = e0.2 /\ vt !! v = Some A)) as [Hb|Hb].
        { rewrite IH4.
          - rewrite Hvt1, bool_decide_true; auto.
          - rewrite Hvt1, bool_decide_true; [congruence | auto]. }
        { apply IH3; [eauto | ]. rewrite Hvt1, bool_decide_false; auto. }
    + intros v Hv. rewrite IH4.
      * rewrite Hvt1. rewrite bool_decide_false; auto. tauto.
      * rewrite Hvt1. rewrite bool_decide_false; auto. tauto.
    + intros v Hv. rewrite IH5.
      * rewrite Hvt1. rewrite bool_decide_false; auto.
        intros [-> _]. apply (Hv e0); [set_solver | reflexivity].
      * intros e He. apply Hv. set_solver.
Qed.

(** The effect of [KickoutCandidate A] on a context satisfying the
    invariant. *)
Lemma kickout_effect A d :
  addr_ok A -> vote_inv d ->
  let d' := fst (KickoutCandidate A d) in
  candidateTrie d' = delete A (candidateTrie d) /\
  (forall k, A `prefix_of` k -> delegateTrie d' !! k = None) /\
  (forall k, ~ A `prefix_of` k -> delegateTrie d' !! k = delegateTrie d !! k) /\
  (forall v, voteTrie d !! v = Some A -> voteTrie d' !! v = None) /\
  (forall v, voteTrie d !! v <> Some A -> voteTrie d' !! v = voteTrie d !! v).
Proof.
  intros HA [I1 [I2 I3]]. unfold KickoutCandidate.
  pose proof (kickout_fold A (prefix_iter A (delegateTrie d)) (delegateTrie d) (voteTrie d)) as HF.
  cbv zeta in HF.
  destruct (foldl (kickout_step A) (delegateTrie d, voteTrie d) (prefix_iter A (delegateTrie d)))
    as [dt vt] eqn:Ef.
  simpl in HF. destruct HF as [F1 [F2 [F3 [F4 F5]]]]. simpl.
  split; [reflexivity|]. split; [|split; [|split]].
  - intros k Hk.
    destruct (decide (Exists (fun e => k = A ++ e.2) (prefix_iter A (delegateTrie d))))
      as [Hex|Hnex].
    + apply F1. by apply Exists_exists.
    + rewrite F2.
      * destruct (delegateTrie d !! k) as [w|] eqn:Ew; [|reflexivity].
        exfalso. destruct (I1 _ _ Ew) as [c [Hc [Hw ->]]].
        assert (c = A) as -> by (symmetry; by apply (prefix_addr A c w)).
        apply Hnex, Exists_exists. exists (A ++ w, w). split; [|reflexivity].
        apply elem_of_prefix_iter. simpl. split; [exact Ew | by exists w].
      * intros e He Hk'. apply Hnex, Exists_exists. eauto.
  - intros k Hk. apply F2. intros e He ->. apply Hk. by exists e.2.
  - intros v Hv. apply F3; [|exact Hv].
    destruct (I2 _ _ Hv) as [Hvl _].
    exists (A ++ v, v). split; [|reflexivity].
    apply elem_of_prefix_iter. simpl. split; [by apply I3 | by exists v].
  - intros v Hv. by apply F4.
Qed.

Lemma become_candidate_inv c d : vote_inv d -> vote_inv (fst (BecomeCandidate c d)).
Proof. intros Hd. exact Hd. Qed.

Lemma kickout_inv A d : addr_ok A -> vote_inv d -> vote_inv (fst (KickoutCandidate A d)).
Proof.
  intros HA Hd. pose proof Hd as [I1 [I2 I3]].
  pose proof (kickout_effect A d HA Hd) as HK. cbv zeta in HK.
  destruct HK as [_ [K1 [K2 [K3 K4]]]].
  set (d' := fst (KickoutCandidate A d)) in *.
  assert (KV : forall v c, voteTrie d' !! v = Some c -> voteTrie d !! v = Some c /\ c <> A).
  { intros v c H. destruct (decide (voteTrie d !! v = Some A)) as [HvA|HvA].
    - rewrite K3 in H by done. discriminate.
    - rewrite K4 in H by done. split; [exact H | intros ->; congruence]. }
  split; [|split].
  - intros k w Hk. destruct (decide (A `prefix_of` k)) as [Hp|Hp].
    + rewrite K1 in Hk by done. discriminate.
    + rewrite K2 in Hk by done. by apply I1.
  - intros v c Hk. apply KV in Hk as [Hk _]. by apply I2.
  - intros c v Hc Hv. destruct (decide (c = A)) as [->|HcA].
    + rewrite K1 by (by exists v). split; [discriminate|].
      intros H. apply KV in H as [_ H]. congruence.
    + rewrite K2 by (intros Hp; apply HcA; symmetry; by apply (prefix_addr A c v)).
      rewrite I3 by done. split.
      * intros H. rewrite K4; [exact H | intros E; congruence].
      * intros H. apply KV in H. tauto.
Qed.

Lemma delegate_inv v c d :
  addr_ok v -> addr_ok c -> vote_inv d -> vote_inv (fst (Delegate v c d)).
Proof.
  intros Hv Hc Hd. pose proof Hd as [I1 [I2 I3]]. unfold Delegate, trie_get.
  destruct (candidateTrie d !! c); [|exact Hd]. simpl.
  rewrite !trie_update_addr by done.
  set (dt0 := match voteTrie d !! v with
              | Some o => trie_delete (o ++ v) (delegateTrie d)
              | None => delegateTrie d end).
  assert (D0 : forall k w, dt0 !! k = Some w -> delegateTrie d !! k = Some w).
  { intros k w. subst dt0. destruct (voteTrie d !! v); [|auto].
    unfold trie_delete. intros Hk. apply lookup_delete_Some in Hk. tauto. }
  assert (D1 : forall c', dt0 !! (c' ++ v) <> Some v).
  { intros c' Hk. subst dt0. destruct (voteTrie d !! v) as [o|] eqn:Eo.
    - unfold trie_delete in Hk. destruct (decide (c' = o)) as [->|Hco].
      + rewrite lookup_delete_eq in Hk. discriminate.
      + rewrite lookup_delete_ne in Hk by (intros H; apply app_inv_tail in H; congruence).
        destruct (I2 _ _ Eo) as [_ Ho].
        assert (Hc' : addr_ok c').
        { destruct (I1 _ _ Hk) as [c0 [Hc0 [_ Hkey]]].
          apply app_inv_tail in Hkey. by subst. }
        apply I3 in Hk; [congruence | done | done].
    - destruct (I1 _ _ Hk) as [c0 [Hc0 [_ Hkey]]]. apply app_inv_tail in Hkey. subst c0.
      apply I3 in Hk; [congruence | done | done]. }
  assert (D2 : forall c' v', addr_ok c' -> v' <> v -> dt0 !! (c' ++ v') = delegateTrie d !! (c' ++ v')).
  { intros c' v' Hc' Hne. subst dt0. destruct (voteTrie d !! v) as [o|] eqn:Eo; [|reflexivity].
    destruct (I2 _ _ Eo) as [_ Ho]. unfold trie_delete.
    apply lookup_delete_ne. apply key_ne_r; [done | done | congruence]. }
  split; [|split]; simpl.
  - intros k w Hk. apply lookup_insert_Some in Hk as [[<- <-]|[_ Hk]].
    + exists c. auto.
    + by apply I1, D0.
  - intros v' c' Hk. apply lookup_insert_Some in Hk as [[<- <-]|[_ Hk]]; [auto | by apply I2].
  - intros c' v' Hc' Hv'. destruct (decide (v' = v)) as [->|Hne].
    + rewrite lookup_insert_eq. destruct (decide (c' = c)) as [->|Hcc].
      * rewrite lookup_insert_eq. tauto.
      * rewrite lookup_insert_ne by (intros H; apply app_inv_tail in H; congruence).
        split; [intros H; by apply D1 in H | congruence].
    + rewrite lookup_insert_ne by (apply key_ne_r; [done | done | congruence]).
      rewrite lookup_insert_ne by congruence.
      rewrite D2 by done. by apply I3.
Qed.

Lemma undelegate_inv v c d :
  addr_ok v -> addr_ok c -> vote_inv d -> vote_inv (fst (UnDelegate v c d)).
Proof.
  intros Hv Hc Hd. pose proof Hd as [I1 [I2 I3]]. unfold UnDelegate, trie_get.
  destruct (candidateTrie d !! c); [|exact Hd]. simpl.
  case_bool_decide as Heq; [|exact Hd]. simpl.
  assert (Hvc : voteTrie d !! v = Some c).
  { destruct (voteTrie d !! v); simpl in Heq; [congruence|].
    subst c. by destruct (addr_ok_nil_false Hc). }
  unfold trie_delete. split; [|split]; simpl.
  - intros k w Hk. apply lookup_delete_Some in Hk as [_ Hk]. by apply I1.
  - intros v' c' Hk. apply lookup_delete_Some in Hk as [_ Hk]. by apply I2.
  - intros c' v' Hc' Hv'. destruct (decide (v' = v)) as [->|Hne].
    + rewrite lookup_delete_eq. split; [|congruence].
      destruct (decide (c' = c)) as [->|Hcc].
      * rewrite lookup_delete_eq. congruence.
      * rewrite lookup_delete_ne by (intros H; apply app_inv_tail in H; congruence).
        intros H. apply I3 in H; [congruence | done | done].
    + rewrite lookup_delete_ne by (apply key_ne_r; [done | done | congruence]).
      rewrite lookup_delete_ne by congruence. by apply I3.
Qed.

Lemma empty_tries_inv : vote_inv empty_tries.
Proof.
  split; [|split]; simpl.
  - intros k v Hk. rewrite lookup_empty in Hk. discriminate.
  - intros v c Hk. rewrite lookup_empty in Hk. discriminate.
  - intros c v _ _. rewrite !lookup_empty. split; discriminate.
Qed.

Lemma run_vote_ops_inv os d :
  Forall vote_op_ok os -> vote_inv d -> vote_inv (run_vote_ops os d).
Proof.
  revert d. induction os as [|o os IH]; intros d Hok Hd; [exact Hd|].
  inversion Hok as [|? ? Ho Hos]; subst. apply IH; [exact Hos|].
  destruct o; simpl in Ho; unfold apply_vote_op.
  - by apply become_candidate_inv.
  - by apply kickout_inv.
  - destruct Ho. by apply delegate_inv.
  - destruct Ho. by apply undelegate_inv.
Qed.

Lemma take_drop_key c w : addr_ok c -> take 20 (c ++ w) = c /\ drop 20 (c ++ w) = w.
Proof.
  unfold addr_ok. intros <-. split; [apply take_app_length | apply drop_app_length].
Qed.

Lemma vote_inv_pairs d :
  vote_inv d ->
  delegate_pairs d ≡ₚ vote_pairs d /\ NoDup (snd <$> vote_pairs d) /\
  NoDup (snd <$> delegate_pairs d).
Proof.
  intros [I1 [I2 I3]].
  assert (ND1 : NoDup (delegate_pairs d)).
  { unfold delegate_pairs. apply NoDup_fmap_2_strong; [|apply NoDup_map_to_list].
    intros [k1 w1] [k2 w2] H1 H2 Heq. simpl in Heq. injection Heq as Ht Hd.
    assert (k1 = k2) as <-.
    { rewrite <- (take_drop 20 k1), <- (take_drop 20 k2). congruence. }
    apply elem_of_map_to_list in H1, H2. congruence. }
  assert (ND2 : NoDup (vote_pairs d)).
  { unfold vote_pairs. apply NoDup_fmap_2_strong; [|apply NoDup_map_to_list].
    intros [k1 w1] [k2 w2] _ _ Heq. simpl in Heq. congruence. }
  assert (HP : delegate_pairs d ≡ₚ vote_pairs d).
  { apply NoDup_Permutation; [exact ND1 | exact ND2 |].
    intros [c v]. unfold delegate_pairs, vote_pairs. rewrite !list_elem_of_fmap. split.
    - intros [[k w] [Heq Hin]]. apply elem_of_map_to_list in Hin.
      destruct (I1 _ _ Hin) as [c0 [Hc0 [Hw ->]]]. simpl in Heq.
      destruct (take_drop_key c0 w Hc0) as [Et Ed]. rewrite Et, Ed in Heq.
      injection Heq as -> ->.
      exists (w, c0). split; [reflexivity|]. apply elem_of_map_to_list. by apply I3.
    - intros [[v0 c0] [Heq Hin]]. simpl in Heq. injection Heq as -> ->.
      apply elem_of_map_to_list in Hin. destruct (I2 _ _ Hin) as [Hv Hc].
      exists (c0 ++ v0, v0). split.
      + simpl. destruct (take_drop_key c0 v0 Hc) as [Et Ed]. by rewrite Et, Ed.
      + apply elem_of_map_to_list. by apply I3. }
  split; [exact HP|]. split.
  - unfold vote_pairs. rewrite <- list_fmap_compose.
    apply NoDup_fst_map_to_list.
  - rewrite HP. unfold vote_pairs. rewrite <- list_fmap_compose.
    apply NoDup_fst_map_to_list.
Qed.

Lemma delegate_success v c d :
  addr_ok v -> addr_ok c -> candidateTrie d !! c <> None ->
  Delegate v c d =
    (set_delegate_vote
       (<[c ++ v := v]> (match voteTrie d !! v with
                         | Some o => delete (o ++ v) (delegateTrie d)
                         | None => delegateTrie d end))
       (<[v := c]> (voteTrie d)) d, None).
Proof.
  intros Hv Hc Hin. unfold Delegate, trie_get.
  destruct (candidateTrie d !! c); [|congruence].
  rewrite !trie_update_addr by done. reflexivity.
Qed.

(* ------------------------------------------------------------------ *)
(** ** C1: vote/delegate consistency *)

(** C1: after any finite sequence of [BecomeCandidate], [KickoutCandidate],
    [Delegate] and [UnDelegate] on addresses, started from an empty
    context, the multiset of pairs [(C, V)] with a delegate row [C ‖ V] is
    a permutation of the multiset of pairs [(vote[V], V)] of the vote trie;
    every voter has at most one vote row and at most one delegate row. *)
Theorem vote_delegate_consistency (os : list VoteOp) :
  Forall vote_op_ok os ->
  let d := run_vote_ops os empty_tries in
  delegate_pairs d ≡ₚ vote_pairs d /\ NoDup (snd <$> vote_pairs d) /\
  NoDup (snd <$> delegate_pairs d).
Proof.
  intros Hok. apply vote_inv_pairs, run_vote_ops_inv; [exact Hok | apply empty_tries_inv].
Qed.

Lemma vote_delegate_consistency_witness :
  let os := [OpBecomeCandidate addrA; OpBecomeCandidate addrB; OpDelegate addrV1 addrA;
             OpDelegate addrV2 addrA; OpDelegate addrV1 addrB; OpUnDelegate addrV2 addrA;
             OpDelegate addrV2 addrB; OpKickoutCandidate addrB] in
  Forall vote_op_ok os /\
  (let d := run_vote_ops os empty_tries in
   delegate_pairs d ≡ₚ vote_pairs d /\ NoDup (snd <$> vote_pairs d) /\
   NoDup (snd <$> delegate_pairs d)).
Proof.
  assert (H : Forall vote_op_ok
    [OpBecomeCandidate addrA; OpBecomeCandidate addrB; OpDelegate addrV1 addrA;
     OpDelegate addrV2 addrA; OpDelegate addrV1 addrB; OpUnDelegate addrV2 addrA;
     OpDelegate addrV2 addrB; OpKickoutCandidate addrB])
    by (repeat constructor).
  split; [exact H | apply (vote_delegate_consistency _ H)].
Defined.

(* ------------------------------------------------------------------ *)
(** ** C6: [Delegate] *)

(** C6: for a voter [v] and a candidate [c] (addresses), [Delegate v c]
    fails with [InvalidCandidateToDelegate] exactly when [c] is not in the
    candidate trie; otherwise it succeeds, deletes [delegate[old ‖ v]] when
    [vote[v] = old], then writes [delegate[c ‖ v] = v] and [vote[v] = c].
    Hence [Delegate(v, A); Delegate(v, B)] with [A <> B] both candidates
    leaves [delegate[A ‖ v]] absent, [delegate[B ‖ v] = v] and
    [vote[v] = B]. *)
Theorem delegate_behaviour (v c : bytes) (d : Tries) :
  addr_ok v -> addr_ok c ->
  (snd (Delegate v c d) = Some ErrInvalidCandidateToDelegate <-> candidateTrie d !! c = None) /\
  (candidateTrie d !! c <> None ->
     snd (Delegate v c d) = None /\
     delegateTrie (fst (Delegate v c d)) =
       <[c ++ v := v]> (match voteTrie d !! v with
                        | Some old => delete (old ++ v) (delegateTrie d)
                        | None => delegateTrie d end) /\
     voteTrie (fst (Delegate v c d)) = <[v := c]> (voteTrie d)) /\
  (forall A B, addr_ok A -> addr_ok B -> A <> B ->
     candidateTrie d !! A <> None -> candidateTrie d !! B <> None ->
     let d2 := fst (Delegate v B (fst (Delegate v A d))) in
     delegateTrie d2 !! (A ++ v) = None /\ delegateTrie d2 !! (B ++ v) = Some v /\
     voteTrie d2 !! v = Some B).
Proof.
  intros Hv Hc. split; [|split].
  - destruct (candidateTrie d !! c) eqn:E.
    + rewrite delegate_success by (rewrite ?E; done). simpl. split; congruence.
    + unfold Delegate, trie_get. rewrite E. simpl. tauto.
  - intros Hin. rewrite delegate_success by done. simpl. auto.
  - intros A B HA HB HAB HinA HinB. simpl.
    rewrite (delegate_success v A d) by done. simpl.
    rewrite (delegate_success v B) by (simpl; done). simpl.
    rewrite lookup_insert_eq. split; [|split].
    + rewrite lookup_insert_ne by (intros H; apply app_inv_tail in H; congruence).
      apply lookup_delete_eq.
    + apply lookup_insert_eq.
    + apply lookup_insert_eq.
Qed.

Lemma delegate_behaviour_witness :
  let d := fst (BecomeCandidate addrA empty_tries) in
  addr_ok addrV1 /\ addr_ok addrA /\
  ((snd (Delegate addrV1 addrA d) = Some ErrInvalidCandidateToDelegate <->
      candidateTrie d !! addrA = None) /\
   (candidateTrie d !! addrA <> None ->
      snd (Delegate addrV1 addrA d) = None /\
      delegateTrie (fst (Delegate addrV1 addrA d)) =
        <[addrA ++ addrV1 := addrV1]> (match voteTrie d !! addrV1 with
                                       | Some old => delete (old ++ addrV1) (delegateTrie d)
                                       | None => delegateTrie d end) /\
      voteTrie (fst (Delegate addrV1 addrA d)) = <[addrV1 := addrA]> (voteTrie d)) /\
   (forall A B, addr_ok A -> addr_ok B -> A <> B ->
      candidateTrie d !! A <> None -> candidateTrie d !! B <> None ->
      let d2 := fst (Delegate addrV1 B (fst (Delegate addrV1 A d))) in
      delegateTrie d2 !! (A ++ addrV1) = None /\ delegateTrie d2 !! (B ++ addrV1) = Some addrV1 /\
      voteTrie d2 !! addrV1 = Some B)).
Proof.
  split; [reflexivity|]. split; [reflexivity|].
  apply (delegate_behaviour addrV1 addrA (fst (BecomeCandidate addrA empty_tries)));
    reflexivity.
Defined.

(* ------------------------------------------------------------------ *)
(** ** C7: [KickoutCandidate] cascades *)

(** C7: in every context reached from the empty one by voting operations,
    [KickoutCandidate A] removes [A] from the candidate trie, removes every
    delegate row whose key starts with [A], and deletes [vote[V]] for every
    delegator [V] of [A] with [vote[V] = A].  After
    [BecomeCandidate(A); Delegate(V1, A); Delegate(V2, A); KickoutCandidate(A)]
    the candidate, delegate and vote tries are all empty. *)
Theorem kickout_cascade (A : bytes) (os : list VoteOp) :
  addr_ok A -> Forall vote_op_ok os ->
  (let d := run_vote_ops os empty_tries in
   let d' := fst (KickoutCandidate A d) in
   candidateTrie d' !! A = None /\
   (forall k, A `prefix_of` k -> delegateTrie d' !! k = None) /\
   (forall V, delegateTrie d !! (A ++ V) <> None -> voteTrie d !! V = Some A ->
      voteTrie d' !! V = None)) /\
  (forall V1 V2, addr_ok V1 -> addr_ok V2 ->
   let d := run_vote_ops [OpBecomeCandidate A; OpDelegate V1 A; OpDelegate V2 A;
                          OpKickoutCandidate A] empty_tries in
   candidateTrie d = ∅ /\ delegateTrie d = ∅ /\ voteTrie d = ∅ /\
   voteTrie d !! V1 = None /\ voteTrie d !! V2 = None).
Proof.
  intros HA Hok. split.
  - cbv zeta.
    pose proof (run_vote_ops_inv os empty_tries Hok empty_tries_inv) as Hinv.
    pose proof (kickout_effect A _ HA Hinv) as HK. cbv zeta in HK.
    destruct HK as [K0 [K1 [K2 [K3 K4]]]]. split; [|split].
    + rewrite K0. apply lookup_delete_eq.
    + exact K1.
    + intros V _ HV. by apply K3.
  - intros V1 V2 HV1 HV2. cbv zeta.
    set (d1 := fst (BecomeCandidate A empty_tries)).
    assert (C1 : candidateTrie d1 = <[A := A]> ∅).
    { subst d1. simpl. by rewrite trie_update_addr. }
    set (d2 := fst (Delegate V1 A d1)).
    assert (E2 : candidateTrie d2 = candidateTrie d1 /\ voteTrie d2 = <[V1 := A]> ∅).
    { subst d2. rewrite delegate_success; [simpl; auto | done | done |].
      rewrite C1, lookup_insert_eq. discriminate. }
    set (d3 := fst (Delegate V2 A d2)).
    assert (E3 : candidateTrie d3 = candidateTrie d1 /\
                 voteTrie d3 = <[V2 := A]> (<[V1 := A]> ∅)).
    { destruct E2 as [E2c E2v]. subst d3. rewrite delegate_success; [| done | done |].
      - simpl. rewrite E2c, E2v. auto.
      - rewrite E2c, C1, lookup_insert_eq. discriminate. }
    assert (Hinv : vote_inv d3).
    { apply (run_vote_ops_inv [OpBecomeCandidate A; OpDelegate V1 A; OpDelegate V2 A]);
        [repeat constructor; done | apply empty_tries_inv]. }
    change (run_vote_ops [OpBecomeCandidate A; OpDelegate V1 A; OpDelegate V2 A;
                          OpKickoutCandidate A] empty_tries)
      with (fst (KickoutCandidate A d3)).
    destruct E3 as [E3c E3v].
    assert (VA : forall w b, voteTrie d3 !! w = Some b -> b = A).
    { intros w b Hw. rewrite E3v in Hw.
      apply lookup_insert_Some in Hw as [[_ <-]|[_ Hw]]; [done|].
      apply lookup_insert_Some in Hw as [[_ <-]|[_ Hw]]; [done|].
      by rewrite lookup_empty in Hw. }
    pose proof Hinv as [I1 [I2 I3]].
    pose proof (kickout_effect A d3 HA Hinv) as HK. cbv zeta in HK.
    destruct HK as [K0 [K1 [K2 [K3 K4]]]].
    assert (Hv : voteTrie (fst (KickoutCandidate A d3)) = ∅).
    { apply map_empty. intros w. destruct (voteTrie d3 !! w) as [b|] eqn:Ew.
      - pose proof (VA _ _ Ew) as ->. by apply K3.
      - rewrite K4; [exact Ew | congruence]. }
    split; [|split; [|split; [exact Hv|]]].
    + rewrite K0, E3c, C1. apply map_empty. intros k.
      rewrite lookup_delete. case_decide; [done|]. 
      rewrite lookup_insert_ne by congruence. apply lookup_empty.
    + apply map_empty. intros k. destruct (decide (A `prefix_of` k)) as [Hp|Hp].
      * by apply K1.
      * rewrite K2 by done. destruct (delegateTrie d3 !! k) as [w|] eqn:Ek; [|done].
        exfalso. destruct (I1 _ _ Ek) as [c [Hc [Hw ->]]].
        apply (I3 c w Hc Hw) in Ek. apply VA in Ek. subst c. apply Hp. by exists w.
    + rewrite Hv, !lookup_empty. done.
Qed.

Lemma kickout_cascade_witness :
  addr_ok addrA /\ Forall vote_op_ok [OpBecomeCandidate addrA; OpDelegate addrV1 addrA] /\
  ((let d := run_vote_ops [OpBecomeCandidate addrA; OpDelegate addrV1 addrA] empty_tries in
    let d' := fst (KickoutCandidate addrA d) in
    candidateTrie d' !! addrA = None /\
    (forall k, addrA `prefix_of` k -> delegateTrie d' !! k = None) /\
    (forall V, delegateTrie d !! (addrA ++ V) <> None -> voteTrie d !! V = Some addrA ->
       voteTrie d' !! V = None)) /\
   (forall V1 V2, addr_ok V1 -> addr_ok V2 ->
    let d := run_vote_ops [OpBecomeCandidate addrA; OpDelegate V1 addrA; OpDelegate V2 addrA;
                           OpKickoutCandidate addrA] empty_tries in
    candidateTrie d = ∅ /\ delegateTrie d = ∅ /\ voteTrie d = ∅ /\
    voteTrie d !! V1 = None /\ voteTrie d !! V2 = None)).
Proof.
  assert (HA : addr_ok addrA) by reflexivity.
  assert (Hos : Forall vote_op_ok [OpBecomeCandidate addrA; OpDelegate addrV1 addrA])
    by (repeat constructor).
  split; [exact HA|]. split; [exact Hos|].
  apply (kickout_cascade addrA _ HA Hos).
Defined.

(* ------------------------------------------------------------------ *)
(** ** C8: snapshot and revert *)

Lemma store_tries_other t d h p :
  p ∉ ptrs d -> cells (store_tries t d h) !! p = cells h !! p.
Proof.
  intros Hp. unfold store_tries, ptrs in *. simpl.
  rewrite !lookup_insert_ne; try reflexivity; intros E; subst p; apply Hp; set_solver.
Qed.

Lemma load_tries_frame h h' s :
  (forall p, p ∈ ptrs s -> cells h' !! p = cells h !! p) ->
  load_tries h' s = load_tries h s.
Proof.
  intros H. unfold load_tries, deref. unfold ptrs in H.
  rewrite !H by set_solver. reflexivity.
Qed.

Lemma ptrs_set_ptr n q d p : p ∈ ptrs (set_ptr n q d) -> p = q \/ p ∈ ptrs d.
Proof. unfold ptrs. destruct n; simpl; set_solver. Qed.

Lemma run_mutations_frame ms h d h2 d2 (P : list nat) :
  (forall p, p ∈ ptrs d -> p ∉ P) -> (forall p, p ∈ P -> p < next_ptr h) ->
  run_mutations ms h d = Some (h2, d2) ->
  forall p, p ∈ P -> cells h2 !! p = cells h !! p.
Proof.
  revert h d. induction ms as [|m ms IH]; intros h d Hd HP Hrun p Hp.
  - simpl in Hrun. by injection Hrun as <- <-.
  - simpl in Hrun.
    destruct (apply_mutation m h d) as [[h' d']|] eqn:Em; [|discriminate]. simpl in Hrun.
    assert (Step : (forall q, q ∈ ptrs d' -> q ∉ P) /\ (forall q, q ∈ P -> q < next_ptr h') /\
                   (forall q, q ∈ P -> cells h' !! q = cells h !! q)).
    { destruct m as [o|n k v|n t]; simpl in Em.
      - destruct (load_tries h d); [|discriminate]. simpl in Em. injection Em as <- <-.
        split; [exact Hd|]. split; [exact HP|].
        intros q Hq. apply store_tries_other. intros Hq'. exact (Hd q Hq' Hq).
      - destruct (load_tries h d); [|discriminate]. simpl in Em. injection Em as <- <-.
        split; [exact Hd|]. split; [exact HP|].
        intros q Hq. apply store_tries_other. intros Hq'. exact (Hd q Hq' Hq).
      - injection Em as <- <-. simpl. split; [|split].
        + intros q Hq Hq'. apply ptrs_set_ptr in Hq as [->|Hq].
          * specialize (HP _ Hq'). lia.
          * exact (Hd q Hq Hq').
        + intros q Hq. specialize (HP _ Hq). lia.
        + intros q Hq. apply lookup_insert_ne. specialize (HP _ Hq). lia. }
    destruct Step as [S1 [S2 S3]].
    rewrite (IH h' d' S1 S2 Hrun p Hp). by apply S3.
Qed.

(** C8: for every context [d] whose five handles point to allocated tries
    and every sequence of mutations applied to [d] after
    [s := d.Snapshot()], [d.RevertToSnapShot(s)] restores the five tries
    [d] had before the snapshot, so [d.Root()] equals the digest before
    the snapshot, whatever the trie hash and the digest function. *)
Theorem snapshot_roundtrip {Hash : Type} (trie_hash : trie -> Hash)
  (keccak_roots : Hash -> Hash -> Hash -> Hash -> Hash -> Hash)
  (h : Heap) (d : DposContext) (ms : list Mutation) :
  ctx_wf h d ->
  exists h1 s, Snapshot h d = Some (h1, s) /\
    forall h2 d2, run_mutations ms h1 d = Some (h2, d2) ->
      load_tries h2 (RevertToSnapShot d2 s) = load_tries h d /\
      Root trie_hash keccak_roots h2 (RevertToSnapShot d2 s) =
        Root trie_hash keccak_roots h d.
Proof.
  intros [Wa Wn].
  assert (Hload : exists t, load_tries h d = Some t).
  { unfold load_tries, deref.
    destruct (Wa (epochP d)) as [e ->]; [unfold ptrs; set_solver|].
    destruct (Wa (delegateP d)) as [dl ->]; [unfold ptrs; set_solver|].
    destruct (Wa (voteP d)) as [v ->]; [unfold ptrs; set_solver|].
    destruct (Wa (candidateP d)) as [c ->]; [unfold ptrs; set_solver|].
    destruct (Wa (mintCntP d)) as [m ->]; [unfold ptrs; set_solver|].
    simpl. eauto. }
  destruct Hload as [t Ht].
  unfold Snapshot, Copy. rewrite Ht. simpl.
  eexists; eexists; split; [reflexivity|].
  intros h2 d2 Hrun.
  set (n := next_ptr h) in *.
  match type of Hrun with run_mutations _ ?h1 _ = _ => set (H1 := h1) in * end.
  assert (Hframe : forall p, p ∈ [n; S n; S (S n); S (S (S n)); S (S (S (S n)))] ->
                   cells h2 !! p = cells H1 !! p).
  { intros p Hp. eapply (run_mutations_frame ms _ d h2 d2); [| | exact Hrun | exact Hp].
    - intros q Hq Hq'. specialize (Wn q (Wa q Hq)).
      repeat (apply elem_of_cons in Hq' as [->|Hq']; [lia|]). set_solver.
    - intros q Hq. simpl.
      repeat (apply elem_of_cons in Hq as [->|Hq]; [lia|]). set_solver. }
  assert (Hrev : load_tries h2 (RevertToSnapShot d2
             {| epochP := n; delegateP := S n; voteP := S (S n); candidateP := S (S (S n));
                mintCntP := S (S (S (S n))); dbP := None |}) = load_tries h d).
  { rewrite Ht. unfold load_tries, deref. simpl.
    rewrite !Hframe by set_solver. subst H1. simpl.
    repeat first [rewrite lookup_insert_eq | rewrite lookup_insert_ne by lia].
    simpl. destruct t; reflexivity. }
  split; [rewrite Hrev; exact Ht|]. unfold Root. rewrite Hrev, ?Ht. reflexivity.
Qed.

Lemma snapshot_roundtrip_witness :
  ctx_wf heap0 ctx0 /\
  exists h1 s, Snapshot heap0 ctx0 = Some (h1, s) /\
    forall h2 d2,
      run_mutations [MVote (OpBecomeCandidate addrA); MTryUpdate TEpoch addrA addrB;
                     MSetTrie TVote ∅] h1 ctx0 = Some (h2, d2) ->
      load_tries h2 (RevertToSnapShot d2 s) = load_tries heap0 ctx0 /\
      Root (fun t : trie => size t) (fun a b c d e => a + b + c + d + e)
        h2 (RevertToSnapShot d2 s) =
      Root (fun t : trie => size t) (fun a b c d e => a + b + c + d + e) heap0 ctx0.
Proof.
  assert (W : ctx_wf heap0 ctx0).
  { split.
    - intros p Hp. unfold ptrs in Hp. simpl in Hp.
      repeat (apply elem_of_cons in Hp as [->|Hp]; [eexists; reflexivity|]).
      by apply elem_of_nil in Hp.
    - intros p [x Hx]. simpl in *.
      repeat (apply lookup_insert_Some in Hx as [[<- _]|[_ Hx]]; [lia|]).
      by rewrite lookup_empty in Hx. }
  split; [exact W|].
  apply (snapshot_roundtrip (fun t : trie => size t) (fun a b c d e => a + b + c + d + e)
           heap0 ctx0 _ W).
Defined.

(* ------------------------------------------------------------------ *)
(** ** [Commit] *)

(** Claim C2 (as the code has it): a successful [Commit()] commits the five
    tries in the order epoch, delegate, vote, candidate, mintCnt, then
    flushes their roots to the backing store in the order epoch, delegate,
    candidate, vote, mintCnt, and returns the digest made of exactly the
    five committed roots. *)
Theorem commit_sequence (trie_commit : trie -> option bytes) (t t' : Tries)
    (ev : list CommitEvent) (proto : DposContextProto) :
  Commit trie_commit t = (ev, Some (t', proto)) ->
  exists eR dR vR cR mR,
    trie_commit (epochTrie t) = Some eR /\ trie_commit (delegateTrie t) = Some dR /\
    trie_commit (voteTrie t) = Some vR /\ trie_commit (candidateTrie t) = Some cR /\
    trie_commit (mintCntTrie t) = Some mR /\
    ev = [TrieCommitted TEpoch eR; TrieCommitted TDelegate dR; TrieCommitted TVote vR;
          TrieCommitted TCandidate cR; TrieCommitted TMintCnt mR;
          RootFlushed TEpoch eR; RootFlushed TDelegate dR; RootFlushed TCandidate cR;
          RootFlushed TVote vR; RootFlushed TMintCnt mR] /\
    committed_names ev = [TEpoch; TDelegate; TVote; TCandidate; TMintCnt] /\
    flushed_names ev = [TEpoch; TDelegate; TCandidate; TVote; TMintCnt] /\
    proto = {| EpochHash := eR; DelegateHash := dR; CandidateHash := cR;
               VoteHash := vR; MintCntHash := mR |}.
Proof.
  unfold Commit.
  destruct (trie_commit (epochTrie t)) as [eR|]; [|discriminate].
  destruct (trie_commit (delegateTrie t)) as [dR|]; [|discriminate].
  destruct (trie_commit (voteTrie t)) as [vR|]; [|discriminate].
  destruct (trie_commit (candidateTrie t)) as [cR|]; [|discriminate].
  destruct (trie_commit (mintCntTrie t)) as [mR|]; [|discriminate].
  intros H. injection H as <- _ <-.
  exists eR, dR, vR, cR, mR. repeat split.
Qed.

Lemma commit_sequence_witness :
  exists ev t' proto,
    Commit (fun tr : trie => Some (repeat Byte.x00 (size tr))) empty_tries
      = (ev, Some (t', proto)) /\
    exists eR dR vR cR mR,
      (fun tr : trie => Some (repeat Byte.x00 (size tr))) (epochTrie empty_tries) = Some eR /\
      (fun tr : trie => Some (repeat Byte.x00 (size tr))) (delegateTrie empty_tries) = Some dR /\
      (fun tr : trie => Some (repeat Byte.x00 (size tr))) (voteTrie empty_tries) = Some vR /\
      (fun tr : trie => Some (repeat Byte.x00 (size tr))) (candidateTrie empty_tries) = Some cR /\
      (fun tr : trie => Some (repeat Byte.x00 (size tr))) (mintCntTrie empty_tries) = Some mR /\
      ev = [TrieCommitted TEpoch eR; TrieCommitted TDelegate dR; TrieCommitted TVote vR;
            TrieCommitted TCandidate cR; TrieCommitted TMintCnt mR;
            RootFlushed TEpoch eR; RootFlushed TDelegate dR; RootFlushed TCandidate cR;
            RootFlushed TVote vR; RootFlushed TMintCnt mR] /\
      committed_names ev = [TEpoch; TDelegate; TVote; TCandidate; TMintCnt] /\
      flushed_names ev = [TEpoch; TDelegate; TCandidate; TVote; TMintCnt] /\
      proto = {| EpochHash := eR; DelegateHash := dR; CandidateHash := cR;
                 VoteHash := vR; MintCntHash := mR |}.
Proof.
  do 3 eexists. split; [reflexivity|].
  eapply (commit_sequence (fun tr : trie => Some (repeat Byte.x00 (size tr))) empty_tries).
  reflexivity.
Defined.

(** Against C2: the backing-store flushes do not follow the per-trie commit
    order; the candidate root is flushed before the vote root. *)
Lemma commit_order_counterexample :
  is_Some (snd (Commit (fun _ => Some []) empty_tries)) /\
  committed_names (fst (Commit (fun _ => Some []) empty_tries))
    = [TEpoch; TDelegate; TVote; TCandidate; TMintCnt] /\
  flushed_names (fst (Commit (fun _ => Some []) empty_tries))
    <> [TEpoch; TDelegate; TVote; TCandidate; TMintCnt].
Proof.
  split; [eexists; reflexivity|]. split; [reflexivity|]. vm_compute. discriminate.
Qed.

(* ------------------------------------------------------------------ *)
(** ** Slot scheduler *)

Lemma wrap64_id (z : Z) : (- 2^63 <= z < 2^63)%Z -> wrap64 z = z.
Proof.
  intros Hz. unfold wrap64. rewrite Z.mod_small; lia.
Qed.

Lemma wrap64_sub1 (x : Z) : wrap64 (wrap64 x - 1) = wrap64 (x - 1).
Proof.
  unfold wrap64. f_equal.
  replace ((x + 2 ^ 63) mod 2 ^ 64 - 2 ^ 63 - 1 + 2 ^ 63)%Z
    with ((x + 2 ^ 63) mod 2 ^ 64 - 1)%Z by lia.
  rewrite Zminus_mod_idemp_l. f_equal. lia.
Qed.

(** Claim C3 (as the code has it): for a positive time [t], a positive
    interval [I] and no [int64] overflow ([t + I <= 2^63]),
    [NextSlot(PrevSlot(t)+1) = NextSlot(t)], [PrevSlot(t) <= t], and
    [t < NextSlot(t)] when [t] is not a multiple of [I]. *)
Theorem slot_idempotence (t I : Z) (Ht : (1 <= t)%Z) (HI : (1 <= I)%Z)
    (Hov : (t + I <= 2^63)%Z) :
  exists p n,
    PrevSlot t I = Some p /\ NextSlot t I = Some n /\
    NextSlot (wrap64 (p + 1)) I = Some n /\
    (p <= t)%Z /\ ((t mod I <> 0)%Z -> (t < n)%Z).
Proof.
  set (k := ((t - 1) / I)%Z). set (r := ((t - 1) mod I)%Z).
  assert (Hdm : (t - 1 = I * k + r)%Z) by (apply Z.div_mod; lia).
  assert (Hr : (0 <= r < I)%Z) by (apply Z.mod_pos_bound; lia).
  assert (Hk : (0 <= k)%Z) by (apply Z.div_pos; lia).
  assert (HkI : (0 <= k * I <= t - 1)%Z) by nia.
  assert (Hn1 : ((t + I - 1) / I = k + 1)%Z).
  { replace (t + I - 1)%Z with (r + (k + 1) * I)%Z by lia.
    rewrite Z.div_add by lia. rewrite Z.div_small by lia. lia. }
  assert (Hn2 : ((k * I + 1 + I - 1) / I = k + 1)%Z).
  { replace (k * I + 1 + I - 1)%Z with ((k + 1) * I)%Z by lia.
    apply Z.div_mul. lia. }
  assert (HwI : wrap64 I = I) by (apply wrap64_id; lia).
  exists (k * I)%Z, ((k + 1) * I)%Z.
  unfold PrevSlot, NextSlot, div64. rewrite !HwI.
  replace (I =? 0)%Z with false by (symmetry; apply Z.eqb_neq; lia).
  rewrite !wrap64_sub1.
  rewrite (wrap64_id (t - 1)) by lia.
  rewrite (wrap64_id (k * I + 1)) by lia.
  rewrite (wrap64_id (t + I - 1)) by lia.
  rewrite (wrap64_id (k * I + 1 + I - 1)) by lia.
  rewrite !Z.quot_div_nonneg by lia.
  fold k. rewrite Hn1, Hn2.
  rewrite (wrap64_id k) by lia. rewrite (wrap64_id (k + 1)) by nia.
  rewrite (wrap64_id (k * I)) by lia. rewrite (wrap64_id ((k + 1) * I)) by nia.
  split; [reflexivity|]. split; [reflexivity|]. split; [reflexivity|].
  split; [lia|].
  intros Hm. destruct (Z.eq_dec (r + 1) I) as [E|E].
  - exfalso. apply Hm. replace t with ((k + 1) * I)%Z by lia. apply Z.mod_mul. lia.
  - lia.
Qed.

Lemma slot_idempotence_witness :
  exists p n,
    PrevSlot 17 10 = Some p /\ NextSlot 17 10 = Some n /\
    NextSlot (wrap64 (p + 1)) 10 = Some n /\
    (p <= 17)%Z /\ ((17 mod 10 <> 0)%Z -> (17 < n)%Z).
Proof.
  apply (slot_idempotence 17 10); lia.
Defined.

(** Against C3: Go's [/] truncates towards zero, so at [t = 0] (interval
    10) [PrevSlot] is 0, [NextSlot(PrevSlot(0)+1) = 10] but
    [NextSlot(0) = 0]; and at [t = -5], which is not a multiple of 10,
    [PrevSlot(-5) = 0 > -5]. *)
Lemma slot_idempotence_counterexample :
  PrevSlot 0 10 = Some 0%Z /\ NextSlot (wrap64 (0 + 1)) 10 = Some 10%Z /\
  NextSlot 0 10 = Some 0%Z /\ Some 10%Z <> Some 0%Z /\
  PrevSlot (-5) 10 = Some 0%Z /\ (-5 mod 10 <> 0)%Z /\ ~ (0 <= -5)%Z.
Proof.
  repeat split; try (vm_compute; reflexivity); try discriminate; lia.
Qed.

(* ------------------------------------------------------------------ *)
(** ** Seal verification *)

Lemma byte_to_N_inj (x y : Byte.byte) : Byte.to_N x = Byte.to_N y -> x = y.
Proof.
  intros H. apply (f_equal Byte.of_N) in H. rewrite !Byte.of_to_N in H.
  congruence.
Qed.

Lemma bytes_compare_eq (a b : bytes) : bytes_compare a b = Eq <-> a = b.
Proof.
  revert b. induction a as [|x a IH]; intros [|y b]; simpl;
    try (split; congruence).
  destruct (N.compare (Byte.to_N x) (Byte.to_N y)) eqn:C.
  - apply N.compare_eq_iff, byte_to_N_inj in C. subst y.
    rewrite IH. split; [intros ->|intros E; injection E]; auto.
  - split; [discriminate|]. intros E. injection E as -> ->.
    rewrite N.compare_refl in C. discriminate.
  - split; [discriminate|]. intros E. injection E as -> ->.
    rewrite N.compare_refl in C. discriminate.
Qed.

(** Claim C5: for a header (not the genesis) whose seal recovers to [S]
    and whose expected validator at its time is [E], [verifySeal] answers
    [ErrInvalidBlockValidator] when [S <> E], answers
    [ErrMismatchSignerAndValidator] when [S = E] but the header's validator
    field is another address, and goes on (to the confirmation update) only
    when [S = E] and [S] is the header's validator field; the two errors are
    distinct. *)
Theorem seal_signer_checks (ecrecover : Header -> option bytes)
    (lookupValidator : Z -> option bytes) (updateConfirmed : option SealErr)
    (h : Header) (S E : bytes)
    (Hn : Number h <> 0%Z) (HS : ecrecover h = Some S)
    (HE : lookupValidator (Time h) = Some E) :
  (S <> E -> verifySeal ecrecover lookupValidator updateConfirmed h
               = Some ErrInvalidBlockValidator) /\
  (S = E -> Validator h <> S ->
     verifySeal ecrecover lookupValidator updateConfirmed h
       = Some ErrMismatchSignerAndValidator) /\
  (S = E -> Validator h = S ->
     verifySeal ecrecover lookupValidator updateConfirmed h = updateConfirmed) /\
  ErrInvalidBlockValidator <> ErrMismatchSignerAndValidator.
Proof.
  unfold verifySeal, verifyBlockSigner.
  replace (Number h =? 0)%Z with false by (symmetry; apply Z.eqb_neq; exact Hn).
  rewrite HE, HS.
  split; [|split; [|split]].
  - intros Hne. rewrite bool_decide_false; [reflexivity|].
    rewrite bytes_compare_eq. exact Hne.
  - intros <- Hv. rewrite bool_decide_true by (apply bytes_compare_eq; reflexivity).
    rewrite bool_decide_false; [reflexivity|].
    rewrite bytes_compare_eq. intros E'. apply Hv. symmetry. exact E'.
  - intros <- Hv. rewrite !bool_decide_true; [reflexivity| |].
    + apply bytes_compare_eq. symmetry. exact Hv.
    + apply bytes_compare_eq. reflexivity.
  - discriminate.
Qed.

(** The header of scenario S6: signed by [addrA], the expected validator,
    but carrying [addrB] in its validator field. *)
Lemma seal_signer_checks_witness :
  let h := {| Number := 5; Time := 50; Validator := addrB; ParentHash := [];
              MaxValidatorSize := 3 |} in
  (Number h <> 0%Z) /\
  ((addrA <> addrA -> verifySeal (fun _ => Some addrA) (fun _ => Some addrA) None h
                       = Some ErrInvalidBlockValidator) /\
   (addrA = addrA -> Validator h <> addrA ->
      verifySeal (fun _ => Some addrA) (fun _ => Some addrA) None h
        = Some ErrMismatchSignerAndValidator) /\
   (addrA = addrA -> Validator h = addrA ->
      verifySeal (fun _ => Some addrA) (fun _ => Some addrA) None h = None) /\
   ErrInvalidBlockValidator <> ErrMismatchSignerAndValidator).
Proof.
  intros h. split; [discriminate|].
  apply (seal_signer_checks (fun _ => Some addrA) (fun _ => Some addrA) None h addrA addrA);
    [discriminate|reflexivity|reflexivity].
Defined.

(* ------------------------------------------------------------------ *)
(** ** Mint counter *)

Lemma to_u64_wrap64 (z : Z) : to_u64 (wrap64 z) = to_u64 z.
Proof.
  unfold to_u64, wrap64. rewrite Zminus_mod_idemp_l. f_equal. lia.
Qed.

Lemma be64_wrap64 (z : Z) : be64 (wrap64 z) = be64 z.
Proof. unfold be64. rewrite to_u64_wrap64. reflexivity. Qed.

Lemma be64_succ_wrap (u : Z) : be64 (wrap64 (wrap64 u + 1)) = be64 (u + 1).
Proof.
  rewrite be64_wrap64. unfold be64. f_equal. unfold to_u64.
  rewrite Zplus_mod. rewrite (Zplus_mod u).
  pose proof (to_u64_wrap64 u) as E. unfold to_u64 in E. rewrite E. reflexivity.
Qed.

Lemma trie_update_be64 (k : bytes) (z : Z) (t : trie) :
  trie_update k (be64 z) t = <[k := be64 z]> t.
Proof. reflexivity. Qed.

Lemma bytes_compare_app_l (p v : bytes) : bytes_compare (p ++ v) p <> Lt.
Proof.
  induction p as [|x p IH]; simpl.
  - destruct v; discriminate.
  - rewrite N.compare_refl. exact IH.
Qed.

Lemma iter_next_from_prefix (p v w : bytes) (t : trie) :
  t !! (p ++ v) = Some w -> iter_next_from p t = true.
Proof.
  intros Hl. unfold iter_next_from. apply existsb_exists.
  exists (p ++ v, w). split.
  - apply list_elem_of_In, elem_of_map_to_list. exact Hl.
  - simpl. rewrite bool_decide_false by apply bytes_compare_app_l. reflexivity.
Qed.

(** Claim C9: with [prev_epoch = tP / 86400] and [cur_epoch = tC / 86400]
    (Go's truncating division) and all stored counts 8 bytes long, as
    [updateMintCnt] writes them, the update writes the key
    [be64(cur_epoch) ++ V] and nothing else: with the count [old + 1]
    (as a 64-bit value, [old] the stored big-endian count) when the epochs
    are equal and the key is present, and with the count 1 in every other
    case. *)
Theorem mint_count_update (tP tC : Z) (V : bytes) (t : trie)
    (H8 : map_Forall (fun _ v => length v = 8%nat) t) :
  let prev_epoch := Z.quot tP epochInterval in
  let cur_epoch := Z.quot tC epochInterval in
  let key := be64 cur_epoch ++ V in
  (prev_epoch = cur_epoch -> forall old, t !! key = Some old ->
     exists u, be64_decode old = Some u /\
       updateMintCnt tP tC V t = Some (<[key := be64 (u + 1)]> t)) /\
  (prev_epoch <> cur_epoch \/ t !! key = None ->
     updateMintCnt tP tC V t = Some (<[key := be64 1]> t)).
Proof.
  intros prev_epoch cur_epoch key. unfold updateMintCnt. fold prev_epoch cur_epoch.
  split.
  - intros Heq old Hold.
    assert (Hlen : length old = 8%nat) by exact (H8 _ _ Hold).
    destruct (be64_decode old) as [u|] eqn:Hd;
      [|unfold be64_decode in Hd; rewrite Hlen in Hd; simpl in Hd; discriminate].
    exists u. split; [reflexivity|].
    rewrite Heq, Z.eqb_refl.
    unfold key in Hold. rewrite (iter_next_from_prefix _ _ _ _ Hold).
    unfold trie_get. rewrite Hold, Hd.
    rewrite trie_update_be64, be64_succ_wrap. reflexivity.
  - intros [Hne|Hnone].
    + replace (prev_epoch =? cur_epoch)%Z with false
        by (symmetry; apply Z.eqb_neq; exact Hne). reflexivity.
    + destruct (Z.eqb_spec prev_epoch cur_epoch) as [Heq|]; [|reflexivity].
      rewrite Heq. unfold trie_get. unfold key in Hnone. rewrite Hnone.
      destruct (iter_next_from _ _); reflexivity.
Qed.

Lemma mint_count_update_witness :
  map_Forall (fun _ v => length v = 8%nat)
    ({[be64 0 ++ addrA := be64 4]} : trie) /\
  (let prev_epoch := Z.quot 100 epochInterval in
   let cur_epoch := Z.quot 200 epochInterval in
   let key := be64 cur_epoch ++ addrA in
   (prev_epoch = cur_epoch -> forall old,
      ({[be64 0 ++ addrA := be64 4]} : trie) !! key = Some old ->
      exists u, be64_decode old = Some u /\
        updateMintCnt 100 200 addrA {[be64 0 ++ addrA := be64 4]}
          = Some (<[key := be64 (u + 1)]> {[be64 0 ++ addrA := be64 4]})) /\
   (prev_epoch <> cur_epoch \/ ({[be64 0 ++ addrA := be64 4]} : trie) !! key = None ->
      updateMintCnt 100 200 addrA {[be64 0 ++ addrA := be64 4]}
        = Some (<[key := be64 1]> {[be64 0 ++ addrA := be64 4]}))).
Proof.
  assert (H8 : map_Forall (fun _ v => length v = 8%nat)
                 ({[be64 0 ++ addrA := be64 4]} : trie)).
  { intros k v Hk. apply lookup_singleton_Some in Hk as [_ <-]. reflexivity. }
  split; [exact H8|].
  exact (mint_count_update 100 200 addrA _ H8).
Defined.

(* ------------------------------------------------------------------ *)
(** ** Confirmation tracker *)

Lemma bigUint64_id (x : Z) : (0 <= x < 2^64)%Z -> bigUint64 x = x.
Proof.
  intros H. unfold bigUint64. rewrite Z.abs_eq by lia. apply Z.mod_small. lia.
Qed.

Lemma bigUint64_nonneg (x : Z) : (0 <= bigUint64 x)%Z.
Proof. unfold bigUint64. apply Z.mod_pos_bound. lia. Qed.

Lemma bigInt64_id (x : Z) : (0 <= x < 2^63)%Z -> bigInt64 x = x.
Proof.
  intros H. unfold bigInt64. rewrite bigUint64_id by lia.
  replace (x <? 0)%Z with false by (symmetry; apply Z.ltb_ge; lia).
  apply wrap64_id. lia.
Qed.

Lemma consensus_bound (M : Z) : (0 <= M <= 2^62)%Z -> (1 <= M * 2 / 3 + 1 <= 2^62)%Z.
Proof.
  intros H. split.
  - assert (0 <= M * 2 / 3)%Z by (apply Z.div_pos; lia). lia.
  - assert (M * 2 / 3 < 2^62)%Z by (apply Z.div_lt_upper_bound; lia). lia.
Qed.

Lemma consensusSize_id (g : Header) : (0 <= MaxValidatorSize g <= 2^62)%Z ->
  consensusSize g = (MaxValidatorSize g * 2 / 3 + 1)%Z.
Proof.
  intros H. pose proof (consensus_bound _ H) as Hb. unfold consensusSize, to_u64.
  rewrite (Z.mod_small (MaxValidatorSize g * 2)) by lia.
  rewrite (Z.mod_small (MaxValidatorSize g * 2 / 3 + 1)) by lia.
  apply wrap64_id. lia.
Qed.

Lemma elem_of_add_validator (v x : bytes) (W : list bytes) :
  x ∈ add_validator v W <-> x = v \/ x ∈ W.
Proof.
  unfold add_validator. destruct (decide (v ∈ W)); rewrite ?elem_of_cons; naive_solver.
Qed.

Lemma add_validator_NoDup (v : bytes) (W : list bytes) : NoDup W -> NoDup (add_validator v W).
Proof.
  intros H. unfold add_validator. destruct (decide (v ∈ W)); [exact H|].
  apply NoDup_cons. split; assumption.
Qed.

Lemma length_remove_dups_ext (l k : list bytes) :
  (forall x, x ∈ l <-> x ∈ k) -> length (remove_dups l) = length (remove_dups k).
Proof.
  intros H. apply Permutation_length. apply NoDup_Permutation; try apply NoDup_remove_dups.
  intros x. rewrite !elem_of_remove_dups. apply H.
Qed.

Lemma length_remove_dups_NoDup (l : list bytes) : NoDup l -> length (remove_dups l) = length l.
Proof.
  intros H. apply Permutation_length.
  apply NoDup_Permutation; [apply NoDup_remove_dups|exact H|].
  intros x. apply elem_of_remove_dups.
Qed.

Lemma count_add_validator (v : bytes) (W L : list bytes) :
  length (remove_dups (add_validator v W ++ L)) = length (remove_dups (W ++ v :: L)).
Proof.
  apply length_remove_dups_ext. intros x.
  rewrite !elem_of_app, elem_of_add_validator, elem_of_cons. tauto.
Qed.

Lemma confirm_exit hash getH store (f : nat) (gh : option Header) (conf : Header)
    (epoch : Z) (W : list bytes) :
  confirm_loop hash getH store (S f) gh conf conf epoch W = Some (conf, None, None).
Proof. cbn [confirm_loop]. rewrite bool_decide_true by reflexivity. reflexivity. Qed.

Section ConfirmWalk.
Context (hash : Header -> bytes) (getH : bytes -> option Header)
        (store : Header -> option DbErr) (g : Header).
Hypothesis HM : (0 <= MaxValidatorSize g <= 2^62)%Z.

Local Abbreviation cs := (MaxValidatorSize g * 2 / 3 + 1)%Z.

(** One iteration on headers whose numbers and times fit in 63 bits, where
    Go's 64-bit arithmetic is the arithmetic of [Z]. *)
Lemma confirm_step (f : nat) (conf cur : Header) (epoch : Z) (W : list bytes) :
  (0 <= Number conf)%Z -> (Number conf < Number cur < 2^63)%Z ->
  (0 <= Time cur < 2^63)%Z -> hash conf <> hash cur ->
  (epoch = Z.quot (Time cur) epochInterval \/ W = []) ->
  (Z.of_nat (length W) <= 2^62)%Z ->
  confirm_loop hash getH store (S f) (Some g) conf cur epoch W =
  if (Number cur - Number conf <? cs - Z.of_nat (length W))%Z
  then Some (conf, None, None)
  else
    if (cs <=? Z.of_nat (length (add_validator (Validator cur) W)))%Z
    then Some (cur, Some cur, option_map inl (store cur))
    else match getH (ParentHash cur) with
         | None => Some (conf, None, Some (inr ErrNilBlockHeader))
         | Some parent =>
             confirm_loop hash getH store f (Some g) conf parent
               (Z.quot (Time cur) epochInterval) (add_validator (Validator cur) W)
         end.
Proof.
  intros Hc Hn Ht Hh Hep HW. pose proof (consensus_bound _ HM) as Hb.
  cbn [confirm_loop].
  rewrite bool_decide_false by exact Hh.
  rewrite (bigUint64_id (Number conf)), (bigUint64_id (Number cur)) by lia.
  rewrite (proj2 (Z.ltb_lt _ _)) by lia. cbn [negb andb].
  rewrite (bigInt64_id (Time cur)), (bigInt64_id (Number cur)), (bigInt64_id (Number conf))
    by lia.
  rewrite consensusSize_id by exact HM.
  rewrite (wrap64_id (Number cur - Number conf)) by lia.
  destruct Hep as [->| ->].
  - rewrite Z.eqb_refl. cbn [negb]. rewrite wrap64_id by lia. reflexivity.
  - destruct (Z.quot (Time cur) epochInterval =? epoch)%Z eqn:E; cbn [negb];
      rewrite wrap64_id by (simpl length; lia); [|reflexivity].
    apply Z.eqb_eq in E. rewrite E. reflexivity.
Qed.

Lemma confirm_step_pass (f : nat) (conf cur parent : Header) (epoch : Z) (W : list bytes) :
  (0 <= Number conf)%Z -> (Number conf < Number cur < 2^63)%Z ->
  (0 <= Time cur < 2^63)%Z -> hash conf <> hash cur ->
  (epoch = Z.quot (Time cur) epochInterval \/ W = []) ->
  (Z.of_nat (length W) <= 2^62)%Z ->
  (cs - Z.of_nat (length W) <= Number cur - Number conf)%Z ->
  (Z.of_nat (length (add_validator (Validator cur) W)) < cs)%Z ->
  getH (ParentHash cur) = Some parent ->
  confirm_loop hash getH store (S f) (Some g) conf cur epoch W =
  confirm_loop hash getH store f (Some g) conf parent
    (Z.quot (Time cur) epochInterval) (add_validator (Validator cur) W).
Proof.
  intros Hc Hn Ht Hh Hep HW Hfast Hcnt Hp.
  rewrite confirm_step by assumption.
  rewrite (proj2 (Z.ltb_ge _ _)) by lia. rewrite (proj2 (Z.leb_gt _ _)) by lia.
  rewrite Hp. reflexivity.
Qed.

Lemma confirm_step_confirm (f : nat) (conf cur : Header) (epoch : Z) (W : list bytes) :
  (0 <= Number conf)%Z -> (Number conf < Number cur < 2^63)%Z ->
  (0 <= Time cur < 2^63)%Z -> hash conf <> hash cur ->
  (epoch = Z.quot (Time cur) epochInterval \/ W = []) ->
  (Z.of_nat (length W) <= 2^62)%Z ->
  (cs - Z.of_nat (length W) <= Number cur - Number conf)%Z ->
  (cs <= Z.of_nat (length (add_validator (Validator cur) W)))%Z ->
  confirm_loop hash getH store (S f) (Some g) conf cur epoch W =
  Some (cur, Some cur, option_map inl (store cur)).
Proof.
  intros Hc Hn Ht Hh Hep HW Hfast Hcnt.
  rewrite confirm_step by assumption.
  rewrite (proj2 (Z.ltb_ge _ _)) by lia. rewrite (proj2 (Z.leb_le _ _)) by lia.
  reflexivity.
Qed.

(** The walk from [cur] through the headers [rest] to the header at index
    [k], on which the set of validators walked reaches [consensusSize]. *)
Lemma confirm_walk (conf : Header) (e : Z) (Hc : (0 <= Number conf)%Z) :
  forall (k : nat) (cur : Header) (rest : list Header) (p : Header) (W : list bytes)
         (epoch : Z) (f : nat),
  (cur :: rest) !! k = Some p -> (k < f)%nat ->
  (epoch = e \/ W = []) -> NoDup W -> (Z.of_nat (length W) < cs)%Z ->
  (forall i q, (i <= k)%nat -> (cur :: rest) !! i = Some q ->
     hash conf <> hash q /\ (Number conf < Number q < 2^63)%Z /\
     (0 <= Time q < 2^63)%Z /\ Z.quot (Time q) epochInterval = e) ->
  (forall i q q', (i < k)%nat -> (cur :: rest) !! i = Some q ->
     (cur :: rest) !! S i = Some q' -> getH (ParentHash q) = Some q') ->
  (forall i q, (i <= k)%nat -> (cur :: rest) !! i = Some q ->
     (cs - Z.of_nat (length (remove_dups (W ++ map Validator (take i (cur :: rest)))))
        <= Number q - Number conf)%Z) ->
  (forall i, (i < k)%nat ->
     (Z.of_nat (length (remove_dups (W ++ map Validator (take (S i) (cur :: rest))))) < cs)%Z) ->
  (cs <= Z.of_nat (length (remove_dups (W ++ map Validator (take (S k) (cur :: rest))))))%Z ->
  confirm_loop hash getH store f (Some g) conf cur epoch W
  = Some (p, Some p, option_map inl (store p)).
Proof.
  pose proof (consensus_bound _ HM) as Hb.
  induction k as [|k IH];
    intros cur rest p W epoch f Hk Hf Hep HND HW Hq Hl Hfast Hcnt Hend;
    (destruct f as [|f]; [lia|]);
    destruct (Hq 0%nat cur ltac:(lia) eq_refl) as (Hh & Hn & Ht & He);
    assert (Hep' : epoch = Z.quot (Time cur) epochInterval \/ W = [])
      by (rewrite He; exact Hep);
    pose proof (Hfast 0%nat cur ltac:(lia) eq_refl) as Hf0;
    cbn [take map] in Hf0; rewrite app_nil_r, length_remove_dups_NoDup in Hf0 by exact HND.
  - injection Hk as <-.
    cbn [take map] in Hend. rewrite <- count_add_validator, app_nil_r,
      length_remove_dups_NoDup in Hend by (apply add_validator_NoDup; exact HND).
    apply confirm_step_confirm; auto; lia.
  - destruct rest as [|q rest]; [discriminate|].
    pose proof (Hcnt 0%nat ltac:(lia)) as Hc0. cbn [take map] in Hc0.
    rewrite <- count_add_validator, app_nil_r,
      length_remove_dups_NoDup in Hc0 by (apply add_validator_NoDup; exact HND).
    rewrite (confirm_step_pass f conf cur q epoch W); auto; try lia.
    2:{ apply (Hl 0%nat); [lia|reflexivity|reflexivity]. }
    rewrite He. apply (IH q rest p).
    + exact Hk.
    + lia.
    + left. reflexivity.
    + apply add_validator_NoDup. exact HND.
    + lia.
    + intros i x Hi Hx. apply (Hq (S i)); [lia|exact Hx].
    + intros i x x' Hi Hx Hx'. apply (Hl (S i)); [lia|exact Hx|exact Hx'].
    + intros i x Hi Hx. rewrite count_add_validator.
      exact (Hfast (S i) x ltac:(lia) Hx).
    + intros i Hi. rewrite count_add_validator. exact (Hcnt (S i) ltac:(lia)).
    + rewrite count_add_validator. exact Hend.
Qed.
End ConfirmWalk.

Lemma add_validator_new (v : bytes) (W : list bytes) :
  v ∉ W -> add_validator v W = v :: W.
Proof. intros H. unfold add_validator. destruct (decide (v ∈ W)); tauto. Qed.

Lemma add_validator_old (v : bytes) (W : list bytes) :
  v ∈ W -> add_validator v W = W.
Proof. intros H. unfold add_validator. destruct (decide (v ∈ W)); tauto. Qed.

(** The side conditions of an iteration on a short concrete walk. *)
Ltac confirm_side Hcs :=
  rewrite ?Hcs;
  first [ assumption | (right; reflexivity) | (left; congruence)
        | (rewrite add_validator_new by set_solver; simpl; lia)
        | (rewrite add_validator_old by set_solver; simpl; lia)
        | (simpl; lia) ].

(** Along the walk, headers [i] steps from the head have numbers at most
    [number(head) - i]. *)
Lemma walk_numbers (getH : bytes -> option Header) (hs : list Header) (k : nat)
    (current : Header) :
  hs !! 0%nat = Some current ->
  (forall i q q', (i < k)%nat -> hs !! i = Some q -> hs !! S i = Some q' ->
     getH (ParentHash q) = Some q' /\ (Number q' < Number q)%Z) ->
  forall i q, (i <= k)%nat -> hs !! i = Some q -> (Number q + Z.of_nat i <= Number current)%Z.
Proof.
  intros H0 Hl. induction i as [|i IH]; intros q Hi Hq.
  - rewrite H0 in Hq. injection Hq as <-. lia.
  - destruct (lookup_lt_is_Some_2 hs i) as [q0 Hq0].
    { apply lookup_lt_Some in Hq. lia. }
    destruct (Hl i q0 q ltac:(lia) Hq0 Hq) as [_ Hlt].
    specialize (IH q0 ltac:(lia) Hq0). lia.
Qed.

(** Claim C4 (as the code has it).  With [max_validator_size = 3]
    ([consensusSize = 3]) and the genesis confirmed, walking back from the
    head [h3] of three headers [h3 -> h2 -> h1] of one epoch, numbered
    1, 2, 3:
    - by three distinct validators, the tracker confirms and persists the
      FIRST header [h1], the one at which the walked validator set reaches
      3 (not the head);
    - by [A], [A], [B] (header 1's parent the genesis), nothing is
      confirmed or persisted.
    In general, on a walk from the current header [hs[0]] through its
    parents [hs[1]], [hs[2]], ... in one epoch, without a fast return and
    with the validator set reaching [consensusSize] first at [hs[k]],
    [confirmed] is set to the walked header [hs[k]] and persisted. *)
Theorem confirm_scenarios :
  (forall hash getH store loaded (g h1 h2 h3 : Header),
     MaxValidatorSize g = 3%Z -> Number g = 0%Z ->
     Number h1 = 1%Z -> Number h2 = 2%Z -> Number h3 = 3%Z ->
     Forall (fun h => 0 <= Time h < 2^63)%Z [h1; h2; h3] ->
     Z.quot (Time h1) epochInterval = Z.quot (Time h3) epochInterval ->
     Z.quot (Time h2) epochInterval = Z.quot (Time h3) epochInterval ->
     Forall (fun h => hash g <> hash h) [h1; h2; h3] ->
     getH (ParentHash h3) = Some h2 -> getH (ParentHash h2) = Some h1 ->
     Validator h1 <> Validator h2 -> Validator h1 <> Validator h3 ->
     Validator h2 <> Validator h3 ->
     updateConfirmedBlockHeader hash getH store (Some g) loaded (Some g) h3
       = Some (Some h1, Some h1, option_map inl (store h1))) /\
  (forall hash getH store loaded (g h1 h2 h3 : Header),
     MaxValidatorSize g = 3%Z -> Number g = 0%Z ->
     Number h1 = 1%Z -> Number h2 = 2%Z -> Number h3 = 3%Z ->
     Forall (fun h => 0 <= Time h < 2^63)%Z [h1; h2; h3] ->
     Z.quot (Time h1) epochInterval = Z.quot (Time h3) epochInterval ->
     Z.quot (Time h2) epochInterval = Z.quot (Time h3) epochInterval ->
     Forall (fun h => hash g <> hash h) [h1; h2; h3] ->
     getH (ParentHash h3) = Some h2 -> getH (ParentHash h2) = Some h1 ->
     getH (ParentHash h1) = Some g ->
     Validator h1 = Validator h2 -> Validator h2 <> Validator h3 ->
     updateConfirmedBlockHeader hash getH store (Some g) loaded (Some g) h3
       = Some (Some g, None, None)) /\
  (forall hash getH store loaded (g conf current p : Header) (hs : list Header) (k : nat),
     (0 <= MaxValidatorSize g <= 2^62)%Z -> (0 <= Number conf)%Z ->
     hs !! 0%nat = Some current -> hs !! k = Some p ->
     (forall i q, (i <= k)%nat -> hs !! i = Some q ->
        hash conf <> hash q /\ (Number conf < Number q < 2^63)%Z /\
        (0 <= Time q < 2^63)%Z /\
        Z.quot (Time q) epochInterval = Z.quot (Time p) epochInterval) ->
     (forall i q q', (i < k)%nat -> hs !! i = Some q -> hs !! S i = Some q' ->
        getH (ParentHash q) = Some q' /\ (Number q' < Number q)%Z) ->
     (forall i q, (i <= k)%nat -> hs !! i = Some q ->
        (MaxValidatorSize g * 2 / 3 + 1
           - Z.of_nat (length (remove_dups (map Validator (take i hs))))
         <= Number q - Number conf)%Z) ->
     (forall i, (i < k)%nat ->
        (Z.of_nat (length (remove_dups (map Validator (take (S i) hs))))
         < MaxValidatorSize g * 2 / 3 + 1)%Z) ->
     (MaxValidatorSize g * 2 / 3 + 1
      <= Z.of_nat (length (remove_dups (map Validator (take (S k) hs)))))%Z ->
     updateConfirmedBlockHeader hash getH store (Some conf) loaded (Some g) current
       = Some (Some p, Some p, option_map inl (store p))).
Proof.
  split; [|split].
  - intros hash getH store loaded g h1 h2 h3 HM Hg N1 N2 N3 HT E1 E2 HH L3 L2 V12 V13 V23.
    assert (HMb : (0 <= MaxValidatorSize g <= 2^62)%Z) by lia.
    assert (Hcs : (MaxValidatorSize g * 2 / 3 + 1 = 3)%Z) by (rewrite HM; reflexivity).
    rewrite !Forall_cons in HT, HH. destruct HT as (T1 & T2 & T3 & _).
    destruct HH as (H1 & H2 & H3 & _).
    unfold updateConfirmedBlockHeader. cbn beta iota zeta. rewrite N3.
    change (S (Z.to_nat (bigUint64 3))) with 4%nat.
    rewrite (confirm_step_pass hash getH store g HMb 3 g h3 h2 (-1) [])
      by confirm_side Hcs.
    rewrite add_validator_new by set_solver.
    rewrite (confirm_step_pass hash getH store g HMb 2 g h2 h1) by confirm_side Hcs.
    rewrite add_validator_new by set_solver.
    rewrite (confirm_step_confirm hash getH store g HMb 1 g h1) by confirm_side Hcs.
    reflexivity.
  - intros hash getH store loaded g h1 h2 h3 HM Hg N1 N2 N3 HT E1 E2 HH L3 L2 L1 V12 V23.
    assert (HMb : (0 <= MaxValidatorSize g <= 2^62)%Z) by lia.
    assert (Hcs : (MaxValidatorSize g * 2 / 3 + 1 = 3)%Z) by (rewrite HM; reflexivity).
    rewrite !Forall_cons in HT, HH. destruct HT as (T1 & T2 & T3 & _).
    destruct HH as (H1 & H2 & H3 & _).
    assert (Hin : Validator h1 ∈ [Validator h2; Validator h3]) by (rewrite V12; set_solver).
    unfold updateConfirmedBlockHeader. cbn beta iota zeta. rewrite N3.
    change (S (Z.to_nat (bigUint64 3))) with 4%nat.
    rewrite (confirm_step_pass hash getH store g HMb 3 g h3 h2 (-1) [])
      by confirm_side Hcs.
    rewrite add_validator_new by set_solver.
    rewrite (confirm_step_pass hash getH store g HMb 2 g h2 h1) by confirm_side Hcs.
    rewrite add_validator_new by set_solver.
    rewrite (confirm_step_pass hash getH store g HMb 1 g h1 g) by confirm_side Hcs.
    rewrite confirm_exit. reflexivity.
  - intros hash getH store loaded g conf current p hs k HMb Hc H0 Hk Hq Hl Hfast Hcnt Hend.
    pose proof (consensus_bound _ HMb) as Hb.
    destruct hs as [|c0 rest]; [discriminate H0|]. injection H0 as ->.
    destruct (Hq 0%nat current ltac:(lia) eq_refl) as (_ & Hn0 & _).
    destruct (Hq k p ltac:(lia) Hk) as (_ & Hnp & _).
    pose proof (walk_numbers getH (current :: rest) k current eq_refl Hl k p
                  ltac:(lia) Hk) as Hkn.
    unfold updateConfirmedBlockHeader. cbn beta iota zeta.
    rewrite (bigUint64_id (Number current)) by lia.
    rewrite (confirm_walk hash getH store g HMb conf (Z.quot (Time p) epochInterval) Hc
               k current rest p [] (-1)).
    + reflexivity.
    + exact Hk.
    + lia.
    + right. reflexivity.
    + apply NoDup_nil_2.
    + simpl. lia.
    + exact Hq.
    + intros i q q' Hi Hx Hx'. exact (proj1 (Hl i q q' Hi Hx Hx')).
    + exact Hfast.
    + exact Hcnt.
    + exact Hend.
Qed.

(** The three parts at the test chains: [A], [B], [C] and [A], [A], [B]
    above the genesis, and the general walk on [A], [B], [C] from header 3
    to header 1. *)
Lemma confirm_scenarios_witness :
  updateConfirmedBlockHeader chain_hash (chain_lookup chain_ABC) (fun _ => None)
    (Some genesis_hdr) (inr (inl ErrNotFound)) (Some genesis_hdr) (mk_header 3 addrC)
    = Some (Some (mk_header 1 addrA), Some (mk_header 1 addrA), None) /\
  updateConfirmedBlockHeader chain_hash (chain_lookup chain_AAB) (fun _ => None)
    (Some genesis_hdr) (inr (inl ErrNotFound)) (Some genesis_hdr) (mk_header 3 addrB)
    = Some (Some genesis_hdr, None, None) /\
  updateConfirmedBlockHeader chain_hash (chain_lookup chain_ABC) (fun _ => None)
    (Some genesis_hdr) (inr (inl ErrNotFound)) (Some genesis_hdr) (mk_header 3 addrC)
    = Some (Some (mk_header 1 addrA), Some (mk_header 1 addrA), None).
Proof.
  split; [|split].
  - apply (proj1 confirm_scenarios chain_hash (chain_lookup chain_ABC) (fun _ => None)
             (inr (inl ErrNotFound)) genesis_hdr (mk_header 1 addrA) (mk_header 2 addrB)
             (mk_header 3 addrC));
      first [ reflexivity | (repeat constructor; cbn; lia)
            | (repeat constructor; vm_compute; intros E; discriminate E)
            | (vm_compute; intros E; discriminate E) ].
  - apply (proj1 (proj2 confirm_scenarios) chain_hash (chain_lookup chain_AAB)
             (fun _ => None) (inr (inl ErrNotFound)) genesis_hdr (mk_header 1 addrA)
             (mk_header 2 addrA) (mk_header 3 addrB));
      first [ reflexivity | (repeat constructor; cbn; lia)
            | (repeat constructor; vm_compute; intros E; discriminate E)
            | (vm_compute; intros E; discriminate E) ].
  - apply (proj2 (proj2 confirm_scenarios) chain_hash (chain_lookup chain_ABC)
             (fun _ => None) (inr (inl ErrNotFound)) genesis_hdr genesis_hdr
             (mk_header 3 addrC) (mk_header 1 addrA)
             [mk_header 3 addrC; mk_header 2 addrB; mk_header 1 addrA] 2%nat).
    + cbn. lia.
    + cbn. lia.
    + reflexivity.
    + reflexivity.
    + intros i q Hi Hx. destruct i as [|[|[|i]]]; [| | |lia];
        injection Hx as <-; repeat split;
        first [ reflexivity | (cbn; lia) | (vm_compute; intros E; discriminate E) ].
    + intros i q q' Hi Hx Hx'. destruct i as [|[|i]]; [| |lia];
        injection Hx as <-; injection Hx' as <-; (split; [reflexivity|cbn; lia]).
    + intros i q Hi Hx. destruct i as [|[|[|i]]]; [| | |lia];
        injection Hx as <-; apply Z.leb_le; vm_compute; reflexivity.
    + intros i Hi. destruct i as [|[|i]]; [| |lia]; apply Z.ltb_lt; vm_compute; reflexivity.
    + apply Z.leb_le. vm_compute. reflexivity.
Defined.

(** Against C4: on the [A], [B], [C] chain the confirmed header becomes
    header 1, not the head (header 3). *)
Lemma confirm_head_counterexample :
  updateConfirmedBlockHeader chain_hash (chain_lookup chain_ABC) (fun _ => None)
    (Some genesis_hdr) (inr (inl ErrNotFound)) (Some genesis_hdr) (mk_header 3 addrC)
    = Some (Some (mk_header 1 addrA), Some (mk_header 1 addrA), None) /\
  mk_header 1 addrA <> mk_header 3 addrC.
Proof.
  split; [vm_compute; reflexivity|]. intros E. injection E. discriminate.
Qed.

(* ------------------------------------------------------------------ *)
(** ** Validator list *)

Lemma to_N_byte_of_N (n : N) : (n < 256)%N -> Byte.to_N (byte_of_N n) = n.
Proof.
  intros Hn. unfold byte_of_N. destruct (Byte.of_N n) as [b|] eqn:E.
  - apply Byte.to_of_N in E. exact E.
  - apply Byte.of_N_None_iff in E. lia.
Qed.

Lemma be_decode_snoc (l : bytes) (b : Byte.byte) :
  be_decode (l ++ [b]) = (be_decode l * 256 + Byte.to_N b)%N.
Proof. unfold be_decode. rewrite fold_left_app. reflexivity. Qed.

Lemma be_min_aux_zero (f : nat) : be_min_aux f 0 = [].
Proof. destruct f; reflexivity. Qed.

Lemma pow256_S (f : nat) : (256 ^ N.of_nat (S f) = 256 * 256 ^ N.of_nat f)%N.
Proof. rewrite Nat2N.inj_succ, N.pow_succ_r'. reflexivity. Qed.

Lemma be_min_aux_decode (f : nat) (n : N) :
  (n < 256 ^ N.of_nat f)%N -> be_decode (be_min_aux f n) = n.
Proof.
  revert n. induction f as [|f IH]; intros n Hn; simpl.
  - simpl in Hn. unfold be_decode. simpl. lia.
  - destruct (N.eqb_spec n 0) as [->|Hn0]; [reflexivity|].
    rewrite be_decode_snoc, IH.
    + rewrite to_N_byte_of_N by (apply N.mod_lt; lia).
      rewrite (N.div_mod n 256) at 3 by lia. lia.
    + rewrite pow256_S in Hn. apply N.Div0.div_lt_upper_bound. lia.
Qed.

Lemma be_min_aux_length (f : nat) (n : N) : (length (be_min_aux f n) <= f)%nat.
Proof.
  revert n. induction f as [|f IH]; intros n; simpl; [lia|].
  destruct (n =? 0)%N; simpl; [lia|].
  rewrite length_app. simpl. specialize (IH (n / 256)%N). lia.
Qed.

Lemma be_min_aux_head (f : nat) (n : N) :
  n <> 0%N -> (n < 256 ^ N.of_nat f)%N ->
  exists b l, be_min_aux f n = b :: l /\ b <> Byte.x00.
Proof.
  revert n. induction f as [|f IH]; intros n Hn0 Hn.
  - simpl in Hn. lia.
  - simpl. replace (n =? 0)%N with false by (symmetry; apply N.eqb_neq; exact Hn0).
    destruct (N.eqb_spec (n / 256) 0) as [Hq|Hq].
    + rewrite Hq, be_min_aux_zero. simpl.
      exists (byte_of_N (n mod 256)), []. split; [reflexivity|].
      intros E. apply (f_equal Byte.to_N) in E.
      rewrite to_N_byte_of_N in E by (apply N.mod_lt; lia).
      assert (n < 256)%N.
      { apply (N.div_small_iff n 256); [lia|exact Hq]. }
      rewrite N.mod_small in E by lia. simpl in E. lia.
    + rewrite pow256_S in Hn.
      destruct (IH (n / 256)%N Hq) as (b & l & E & Hb).
      { apply N.Div0.div_lt_upper_bound. lia. }
      rewrite E. exists b, (l ++ [byte_of_N (n mod 256)]). split; [reflexivity|exact Hb].
Qed.

Lemma rlp_items_length (L : list bytes) :
  Forall addr_ok L -> length (concat (map rlp_encode_address L)) = (21 * length L)%nat.
Proof.
  induction 1 as [|a L Ha _ IH]; [reflexivity|].
  simpl. rewrite length_app, IH. unfold addr_ok in Ha. lia.
Qed.

Lemma rlp_items_decode (L : list bytes) (f : nat) :
  Forall addr_ok L -> (length L < f)%nat ->
  rlp_decode_address_items f (concat (map rlp_encode_address L)) = Some L.
Proof.
  intros HL. revert f. induction HL as [|a L Ha _ IH]; intros [|f] Hf; simpl in Hf; try lia.
  - reflexivity.
  - cbn [map concat rlp_encode_address app rlp_decode_address_items].
    assert (Hd : drop 20 (a ++ concat (map rlp_encode_address L))
                 = concat (map rlp_encode_address L))
      by (rewrite <- Ha; apply drop_app_length).
    assert (Ht : take 20 (a ++ concat (map rlp_encode_address L)) = a)
      by (rewrite <- Ha; apply take_app_length).
    assert (Hl : (20 <=? length (a ++ concat (map rlp_encode_address L)))%nat = true)
      by (apply Nat.leb_le; rewrite length_app; unfold addr_ok in Ha; lia).
    rewrite Hl, bool_decide_true by reflexivity. simpl andb.
    rewrite Hd, IH by lia. rewrite Ht. reflexivity.
Qed.

Lemma rlp_list_payload_header (n : N) (p : bytes) :
  N.of_nat (length p) = n -> (n < 2 ^ 64)%N ->
  rlp_list_payload (rlp_list_header n ++ p) = Some p.
Proof.
  intros Hp Hn. unfold rlp_list_header. destruct (N.leb_spec n 55) as [Hs|Hs].
  - simpl app. unfold rlp_list_payload.
    rewrite to_N_byte_of_N by lia.
    replace (0xc0 + n <? 0xc0)%N with false by (symmetry; apply N.ltb_ge; lia).
    replace (0xc0 + n <=? 0xf7)%N with true by (symmetry; apply N.leb_le; lia).
    replace (N.of_nat (length p) =? 0xc0 + n - 0xc0)%N with true
      by (symmetry; apply N.eqb_eq; lia).
    reflexivity.
  - assert (H256 : (n < 256 ^ N.of_nat 8)%N) by exact Hn.
    destruct (be_min_aux_head 8 n) as (b & l & E & Hb); [lia|exact H256|].
    pose proof (be_min_aux_length 8 n) as Hlen.
    pose proof (be_min_aux_decode 8 n H256) as Hdec.
    unfold be_min. rewrite E in Hlen, Hdec |- *.
    simpl length in Hlen. simpl app. unfold rlp_list_payload.
    rewrite to_N_byte_of_N by (simpl length; lia).
    simpl length.
    replace (0xf7 + N.of_nat (S (length l)) <? 0xc0)%N with false
      by (symmetry; apply N.ltb_ge; lia).
    replace (0xf7 + N.of_nat (S (length l)) <=? 0xf7)%N with false
      by (symmetry; apply N.leb_gt; lia).
    replace (N.to_nat (0xf7 + N.of_nat (S (length l)) - 0xf7)) with (length (b :: l))
      by (simpl length; lia).
    change (b :: l ++ p) with ((b :: l) ++ p).
    rewrite take_app_length, drop_app_length, Nat.ltb_irrefl.
    rewrite bool_decide_false by exact Hb.
    rewrite Hdec.
    replace (n <=? 55)%N with false by (symmetry; apply N.leb_gt; lia).
    replace (N.of_nat (length p) =? n)%N with true by (symmetry; apply N.eqb_eq; lia).
    reflexivity.
Qed.

(** Claim C10: on a fresh [DposContext], [GetValidators] fails (decoding
    the absent value fails) instead of answering an empty list; after
    [SetValidators L], for any list [L] of addresses (of realistic length),
    [GetValidators] answers exactly [L]. *)
Theorem validators_roundtrip :
  GetValidators NewDposContext = None /\
  forall (L : list bytes) (d : Tries),
    Forall addr_ok L -> (N.of_nat (21 * length L) < 2 ^ 64)%N ->
    GetValidators (SetValidators L d) = Some L.
Proof.
  split; [reflexivity|]. intros L d HL Hb.
  pose proof (rlp_items_length L HL) as Hlen.
  unfold GetValidators, SetValidators, set_epoch. cbn [epochTrie].
  rewrite trie_update_ne_nil.
  2:{ unfold rlp_encode_addresses, rlp_list_header.
      destruct (_ <=? 55)%N; discriminate. }
  unfold trie_get. rewrite lookup_insert_eq. simpl default.
  unfold rlp_decode_addresses, rlp_encode_addresses.
  rewrite rlp_list_payload_header; [| reflexivity | rewrite Hlen; exact Hb].
  apply rlp_items_decode; [exact HL|]. rewrite Hlen. lia.
Qed.

Lemma validators_roundtrip_witness :
  Forall addr_ok [addrA; addrB] /\
  (N.of_nat (21 * length [addrA; addrB]) < 2 ^ 64)%N /\
  GetValidators NewDposContext = None /\
  GetValidators (SetValidators [addrA; addrB] NewDposContext) = Some [addrA; addrB].
Proof.
  assert (HL : Forall addr_ok [addrA; addrB]) by (repeat constructor).
  assert (Hb : (N.of_nat (21 * length [addrA; addrB]) < 2 ^ 64)%N)
    by (vm_compute; reflexivity).
  split; [exact HL|]. split; [exact Hb|].
  split; [exact (proj1 validators_roundtrip)|].
  exact (proj2 validators_roundtrip [addrA; addrB] NewDposContext HL Hb).
Defined.

(* ================================================================== *)
(** * Further properties of the code *)

(* ------------------------------------------------------------------ *)
(** ** Voting operations *)

Lemma vote_inv_delegate_key d c v :
  vote_inv d -> addr_ok c -> addr_ok v ->
  delegateTrie d !! (c ++ v) = None \/ delegateTrie d !! (c ++ v) = Some v.
Proof.
  intros [I1 _] Hc Hv. destruct (delegateTrie d !! (c ++ v)) as [w|] eqn:E; [|by left].
  right. destruct (I1 _ _ E) as (c' & Hc' & Hw & Hk).
  destruct (key_split c v c' w Hc Hc' Hk) as [_ ->]. reflexivity.
Qed.

(** [UnDelegate(v, c)] right after a successful [Delegate(v, c)] of a
    voter that had no vote restores the context exactly. *)
Theorem delegate_undelegate_roundtrip (v c : bytes) (d : Tries) :
  addr_ok v -> addr_ok c -> vote_inv d ->
  candidateTrie d !! c <> None -> voteTrie d !! v = None ->
  snd (Delegate v c d) = None /\ UnDelegate v c (fst (Delegate v c d)) = (d, None).
Proof.
  intros Hv Hc Hd Hcand Hnov. pose proof Hd as [_ [_ I3]].
  rewrite (delegate_success v c d Hv Hc Hcand). rewrite Hnov. simpl.
  split; [reflexivity|].
  assert (Hdel : delegateTrie d !! (c ++ v) = None).
  { destruct (vote_inv_delegate_key d c v Hd Hc Hv) as [E|E]; [exact E|].
    apply I3 in E; [|exact Hc|exact Hv]. congruence. }
  unfold UnDelegate, trie_get. simpl.
  destruct (candidateTrie d !! c) as [x|] eqn:Ec; [|congruence]. simpl.
  rewrite lookup_insert_eq. simpl. rewrite bool_decide_true by reflexivity.
  unfold trie_delete, set_delegate_vote. simpl.
  rewrite !delete_insert_id by assumption.
  destruct d; reflexivity.
Qed.

Lemma delegate_undelegate_roundtrip_witness :
  snd (Delegate addrV1 addrA (fst (BecomeCandidate addrA empty_tries))) = None /\
  UnDelegate addrV1 addrA (fst (Delegate addrV1 addrA (fst (BecomeCandidate addrA empty_tries))))
    = (fst (BecomeCandidate addrA empty_tries), None).
Proof.
  apply delegate_undelegate_roundtrip.
  - reflexivity.
  - reflexivity.
  - apply become_candidate_inv, empty_tries_inv.
  - vm_compute. discriminate.
  - reflexivity.
Defined.

(** [UnDelegate(v, c)]: without candidate [c] it fails with
    [ErrInvalidCandidateToUnDelegate]; when [v]'s vote is not [c] (also
    when [v] has no vote at all) it fails with
    [ErrMismatchCandidateToUnDelegate]; both failures leave the context
    unchanged.  Otherwise it removes the row [c ‖ v] of the delegate trie
    and the vote of [v], and changes nothing else. *)
Theorem undelegate_behaviour (v c : bytes) (d : Tries) :
  addr_ok c ->
  (candidateTrie d !! c = None ->
     UnDelegate v c d = (d, Some ErrInvalidCandidateToUnDelegate)) /\
  (candidateTrie d !! c <> None -> voteTrie d !! v <> Some c ->
     UnDelegate v c d = (d, Some ErrMismatchCandidateToUnDelegate)) /\
  (candidateTrie d !! c <> None -> voteTrie d !! v = Some c ->
     snd (UnDelegate v c d) = None /\
     delegateTrie (fst (UnDelegate v c d)) = delete (c ++ v) (delegateTrie d) /\
     voteTrie (fst (UnDelegate v c d)) = delete v (voteTrie d) /\
     candidateTrie (fst (UnDelegate v c d)) = candidateTrie d /\
     epochTrie (fst (UnDelegate v c d)) = epochTrie d /\
     mintCntTrie (fst (UnDelegate v c d)) = mintCntTrie d).
Proof.
  intros Hc. unfold UnDelegate, trie_get.
  split; [|split].
  - intros ->. reflexivity.
  - intros Hin Hne. destruct (candidateTrie d !! c); [|congruence].
    rewrite bool_decide_false; [reflexivity|].
    intros E. destruct (voteTrie d !! v) as [o|]; simpl in E.
    + subst o. congruence.
    + subst c. exact (addr_ok_nil_false Hc).
  - intros Hin Hvc. destruct (candidateTrie d !! c); [|congruence].
    rewrite Hvc. simpl. rewrite bool_decide_true by reflexivity.
    repeat split.
Qed.

(** The three cases, each where its condition holds: [A] no candidate
    yet; [A] a candidate without [V1]'s vote; [V1] voting for [A]. *)
Lemma undelegate_behaviour_witness :
  UnDelegate addrV1 addrA empty_tries
    = (empty_tries, Some ErrInvalidCandidateToUnDelegate) /\
  UnDelegate addrV1 addrA (fst (BecomeCandidate addrA empty_tries))
    = (fst (BecomeCandidate addrA empty_tries), Some ErrMismatchCandidateToUnDelegate) /\
  snd (UnDelegate addrV1 addrA
         (fst (Delegate addrV1 addrA (fst (BecomeCandidate addrA empty_tries))))) = None /\
  voteTrie (fst (UnDelegate addrV1 addrA
         (fst (Delegate addrV1 addrA (fst (BecomeCandidate addrA empty_tries))))))
    = delete addrV1
        (voteTrie (fst (Delegate addrV1 addrA (fst (BecomeCandidate addrA empty_tries))))).
Proof.
  assert (Hc : addr_ok addrA) by reflexivity.
  split; [|split].
  - apply (proj1 (undelegate_behaviour addrV1 addrA empty_tries Hc)). reflexivity.
  - apply (proj1 (proj2 (undelegate_behaviour addrV1 addrA
             (fst (BecomeCandidate addrA empty_tries)) Hc)));
      vm_compute; intros E; discriminate E.
  - destruct (proj2 (proj2 (undelegate_behaviour addrV1 addrA
        (fst (Delegate addrV1 addrA (fst (BecomeCandidate addrA empty_tries)))) Hc)))
      as (Hs & _ & Hv & _).
    + vm_compute. intros E. discriminate E.
    + vm_compute. reflexivity.
    + split; [exact Hs|exact Hv].
Defined.

(** [KickoutCandidate(A)] never fails, and on a consistent context it
    leaves everything that does not concern [A] alone: the epoch and
    mint-count tries, every other candidate's registration, the delegate
    rows of every other candidate and the votes for every other
    candidate. *)
Theorem kickout_locality (A : bytes) (d : Tries) :
  addr_ok A -> vote_inv d ->
  let d' := fst (KickoutCandidate A d) in
  snd (KickoutCandidate A d) = None /\
  epochTrie d' = epochTrie d /\ mintCntTrie d' = mintCntTrie d /\
  (forall c, addr_ok c -> c <> A ->
     candidateTrie d' !! c = candidateTrie d !! c /\
     (forall v, delegateTrie d' !! (c ++ v) = delegateTrie d !! (c ++ v)) /\
     (forall v, voteTrie d !! v = Some c -> voteTrie d' !! v = Some c)).
Proof.
  intros HA Hd d'.
  pose proof (kickout_effect A d HA Hd) as HK. cbv zeta in HK.
  destruct HK as [K0 [_ [K2 [_ K4]]]]. fold d' in K0, K2, K4.
  assert (Hrest : snd (KickoutCandidate A d) = None /\
                  epochTrie d' = epochTrie d /\ mintCntTrie d' = mintCntTrie d).
  { subst d'. unfold KickoutCandidate.
    destruct (foldl _ _ _). repeat split. }
  destruct Hrest as [H1 [H2 H3]].
  split; [exact H1|]. split; [exact H2|]. split; [exact H3|].
  intros c Hc Hne. split; [|split].
  - rewrite K0. unfold trie_delete. apply lookup_delete_ne. congruence.
  - intros v. apply K2. intros Hp. apply Hne. symmetry. exact (prefix_addr A c v HA Hc Hp).
  - intros v Hv. rewrite K4; [exact Hv|]. rewrite Hv. congruence.
Qed.

Lemma kickout_locality_witness :
  let d := fst (BecomeCandidate addrB (fst (BecomeCandidate addrA empty_tries))) in
  let d' := fst (KickoutCandidate addrA d) in
  snd (KickoutCandidate addrA d) = None /\
  epochTrie d' = epochTrie d /\ mintCntTrie d' = mintCntTrie d /\
  (forall c, addr_ok c -> c <> addrA ->
     candidateTrie d' !! c = candidateTrie d !! c /\
     (forall v, delegateTrie d' !! (c ++ v) = delegateTrie d !! (c ++ v)) /\
     (forall v, voteTrie d !! v = Some c -> voteTrie d' !! v = Some c)).
Proof.
  apply kickout_locality; [reflexivity|].
  apply become_candidate_inv, become_candidate_inv, empty_tries_inv.
Defined.

(** From ANY consistent context (not only the empty one), every sequence
    of voting operations on addresses keeps the delegate and vote tries
    consistent: the pairs [(C, V)] of the delegate rows [C ‖ V] are a
    permutation of the pairs [(vote[V], V)]. *)
Theorem vote_consistency_preserved (os : list VoteOp) (d : Tries) :
  Forall vote_op_ok os -> vote_inv d ->
  vote_inv (run_vote_ops os d) /\
  delegate_pairs (run_vote_ops os d) ≡ₚ vote_pairs (run_vote_ops os d).
Proof.
  intros Hos Hd. pose proof (run_vote_ops_inv os d Hos Hd) as Hinv.
  split; [exact Hinv|]. apply (vote_inv_pairs _ Hinv).
Qed.

Lemma vote_consistency_preserved_witness :
  let d := fst (Delegate addrV1 addrA (fst (BecomeCandidate addrA empty_tries))) in
  let os := [OpBecomeCandidate addrB; OpDelegate addrV1 addrB; OpKickoutCandidate addrA] in
  vote_inv (run_vote_ops os d) /\
  delegate_pairs (run_vote_ops os d) ≡ₚ vote_pairs (run_vote_ops os d).
Proof.
  apply vote_consistency_preserved.
  - repeat constructor.
  - apply delegate_inv; [reflexivity|reflexivity|].
    apply become_candidate_inv, empty_tries_inv.
Defined.

(** Candidate lifecycle: right after [BecomeCandidate(c)] a [Delegate] to
    [c] succeeds; right after [KickoutCandidate(c)] both [Delegate] and
    [UnDelegate] to [c] fail ([ErrInvalidCandidateToDelegate],
    [ErrInvalidCandidateToUnDelegate]) and change nothing. *)
Theorem candidate_lifecycle (v c : bytes) (d : Tries) :
  addr_ok c ->
  snd (Delegate v c (fst (BecomeCandidate c d))) = None /\
  Delegate v c (fst (KickoutCandidate c d))
    = (fst (KickoutCandidate c d), Some ErrInvalidCandidateToDelegate) /\
  UnDelegate v c (fst (KickoutCandidate c d))
    = (fst (KickoutCandidate c d), Some ErrInvalidCandidateToUnDelegate).
Proof.
  intros Hc.
  assert (Hk : candidateTrie (fst (KickoutCandidate c d)) !! c = None).
  { unfold KickoutCandidate. destruct (foldl _ _ _). simpl.
    unfold trie_delete. apply lookup_delete_eq. }
  split; [|split].
  - unfold Delegate, BecomeCandidate, trie_get. simpl.
    rewrite trie_update_addr by exact Hc. rewrite lookup_insert_eq. reflexivity.
  - unfold Delegate, trie_get. rewrite Hk. reflexivity.
  - unfold UnDelegate, trie_get. rewrite Hk. reflexivity.
Qed.

Lemma candidate_lifecycle_witness :
  snd (Delegate addrV1 addrA (fst (BecomeCandidate addrA empty_tries))) = None /\
  Delegate addrV1 addrA (fst (KickoutCandidate addrA empty_tries))
    = (fst (KickoutCandidate addrA empty_tries), Some ErrInvalidCandidateToDelegate) /\
  UnDelegate addrV1 addrA (fst (KickoutCandidate addrA empty_tries))
    = (fst (KickoutCandidate addrA empty_tries), Some ErrInvalidCandidateToUnDelegate).
Proof. apply candidate_lifecycle. reflexivity. Defined.

(* ------------------------------------------------------------------ *)
(** ** [Commit], [ToProto], [Copy] *)

Lemma self_update_id (r : bytes) (tr : trie) :
  map_Forall (fun _ v => v <> []) tr -> self_update r tr = tr.
Proof.
  intros Hne. unfold self_update, trie_get.
  destruct (tr !! r) as [v|] eqn:E; simpl.
  - rewrite trie_update_ne_nil by exact (Hne _ _ E). apply insert_id. exact E.
  - unfold trie_update. apply delete_id. exact E.
Qed.

(** The [TryUpdate(root, Get(root))] that [Commit] performs after each
    trie commit never changes a trie's contents: a successful [Commit]
    leaves the five tries as they were. *)
Theorem commit_keeps_contents (trie_commit : trie -> option bytes) (t t' : Tries)
    (ev : list CommitEvent) (proto : DposContextProto) :
  tries_nonempty_values t ->
  Commit trie_commit t = (ev, Some (t', proto)) -> t' = t.
Proof.
  intros Hne. unfold Commit.
  destruct (trie_commit (epochTrie t)) as [eR|]; [|discriminate].
  destruct (trie_commit (delegateTrie t)) as [dR|]; [|discriminate].
  destruct (trie_commit (voteTrie t)) as [vR|]; [|discriminate].
  destruct (trie_commit (candidateTrie t)) as [cR|]; [|discriminate].
  destruct (trie_commit (mintCntTrie t)) as [mR|]; [|discriminate].
  intros H. injection H as _ <- _.
  rewrite !self_update_id by
    first [exact (Hne TEpoch) | exact (Hne TDelegate) | exact (Hne TVote)
          | exact (Hne TCandidate) | exact (Hne TMintCnt)].
  destruct t; reflexivity.
Qed.

Lemma commit_keeps_contents_witness :
  let tc := fun tr : trie => Some (repeat Byte.x00 (size tr)) in
  let t := fst (BecomeCandidate addrA empty_tries) in
  tries_nonempty_values t /\
  forall ev t' proto, Commit tc t = (ev, Some (t', proto)) -> t' = t.
Proof.
  intros tc t.
  assert (Hne : tries_nonempty_values t).
  { intros n k v Hk. destruct n; simpl in Hk;
      try (rewrite lookup_empty in Hk; discriminate).
    apply lookup_insert_Some in Hk as [[_ <-]|[_ Hk]];
      [discriminate | rewrite lookup_empty in Hk; discriminate]. }
  split; [exact Hne|]. intros ev t' proto. exact (commit_keeps_contents tc t t' ev proto Hne).
Defined.

(** A failed [Commit] flushes no root to the backing store: the tries it
    committed are the ones before the first trie, in the commit order,
    whose commit failed. *)
Theorem commit_failure_no_flush (trie_commit : trie -> option bytes) (t : Tries)
    (ev : list CommitEvent) :
  Commit trie_commit t = (ev, None) ->
  flushed_names ev = [] /\
  exists k n, commit_order !! k = Some n /\ trie_commit (trie_of n t) = None /\
    committed_names ev = take k commit_order /\
    Forall (fun m => is_Some (trie_commit (trie_of m t))) (take k commit_order).
Proof.
  unfold Commit.
  destruct (trie_commit (epochTrie t)) as [eR|] eqn:E1.
  2:{ intros H; injection H as <-. split; [reflexivity|].
      exists 0%nat, TEpoch. repeat split; [exact E1 | constructor]. }
  destruct (trie_commit (delegateTrie t)) as [dR|] eqn:E2.
  2:{ intros H; injection H as <-. split; [reflexivity|].
      exists 1%nat, TDelegate. repeat split; [exact E2|].
      repeat constructor; simpl; rewrite ?E1; eauto. }
  destruct (trie_commit (voteTrie t)) as [vR|] eqn:E3.
  2:{ intros H; injection H as <-. split; [reflexivity|].
      exists 2%nat, TVote. repeat split; [exact E3|].
      repeat constructor; simpl; rewrite ?E1, ?E2; eauto. }
  destruct (trie_commit (candidateTrie t)) as [cR|] eqn:E4.
  2:{ intros H; injection H as <-. split; [reflexivity|].
      exists 3%nat, TCandidate. repeat split; [exact E4|].
      repeat constructor; simpl; rewrite ?E1, ?E2, ?E3; eauto. }
  destruct (trie_commit (mintCntTrie t)) as [mR|] eqn:E5.
  2:{ intros H; injection H as <-. split; [reflexivity|].
      exists 4%nat, TMintCnt. repeat split; [exact E5|].
      repeat constructor; simpl; rewrite ?E1, ?E2, ?E3, ?E4; eauto. }
  discriminate.
Qed.

Lemma commit_failure_no_flush_witness :
  let tc := fun tr : trie => if bool_decide (tr = ∅) then Some [] else None in
  let t := fst (BecomeCandidate addrA empty_tries) in
  Commit tc t = (fst (Commit tc t), None) /\
  (flushed_names (fst (Commit tc t)) = [] /\
   exists k n, commit_order !! k = Some n /\ tc (trie_of n t) = None /\
     committed_names (fst (Commit tc t)) = take k commit_order /\
     Forall (fun m => is_Some (tc (trie_of m t))) (take k commit_order)).
Proof.
  intros tc t.
  assert (H : Commit tc t = (fst (Commit tc t), None)) by (vm_compute; reflexivity).
  split; [exact H|]. exact (commit_failure_no_flush tc t _ H).
Defined.

(** [ToProto] and the two roots agree: the root of the proto a context
    produces ([DposContextProto.Root]) is the context's own [Root], and
    when each trie's commit returns its hash, the proto that [Commit]
    returns is the one [ToProto] gives. *)
Theorem proto_root_consistent (trie_hash : trie -> bytes)
    (keccak_roots : bytes -> bytes -> bytes -> bytes -> bytes -> bytes)
    (h : Heap) (d : DposContext) (t : Tries) :
  load_tries h d = Some t ->
  (exists p, ToProto trie_hash h d = Some p /\
             Root trie_hash keccak_roots h d = Some (ProtoRoot keccak_roots p)) /\
  (forall ev t' p, Commit (fun tr => Some (trie_hash tr)) t = (ev, Some (t', p)) ->
     ToProto trie_hash h d = Some p).
Proof.
  intros Ht. unfold ToProto, Root. rewrite Ht. simpl. split.
  - eexists. split; reflexivity.
  - intros ev t' p. unfold Commit. intros H. injection H as _ _ <-. reflexivity.
Qed.

Lemma proto_root_consistent_witness :
  load_tries heap0 ctx0 = Some empty_tries /\
  (exists p, ToProto (fun tr => repeat Byte.x00 (size tr)) heap0 ctx0 = Some p /\
     Root (fun tr => repeat Byte.x00 (size tr)) (fun a b c d e => a ++ b ++ c ++ d ++ e)
       heap0 ctx0 = Some (ProtoRoot (fun a b c d e => a ++ b ++ c ++ d ++ e) p)) /\
  (forall ev t' p, Commit (fun tr => Some (repeat Byte.x00 (size tr))) empty_tries
                     = (ev, Some (t', p)) ->
     ToProto (fun tr => repeat Byte.x00 (size tr)) heap0 ctx0 = Some p).
Proof.
  assert (Ht : load_tries heap0 ctx0 = Some empty_tries) by reflexivity.
  split; [exact Ht|].
  exact (proto_root_consistent (fun tr => repeat Byte.x00 (size tr))
           (fun a b c d e => a ++ b ++ c ++ d ++ e) heap0 ctx0 empty_tries Ht).
Defined.

(** [Copy] gives a context with the same five trie contents but without a
    database handle, and nothing done through the copy (voting operations,
    [TryUpdate], [SetEpoch]/...) changes the original's tries. *)
Theorem copy_independent (h : Heap) (d : DposContext) (ms : list Mutation) :
  ctx_wf h d ->
  exists h1 d', Copy h d = Some (h1, d') /\ dbP d' = None /\
    load_tries h1 d' = load_tries h d /\ load_tries h1 d = load_tries h d /\
    forall h2 d2, run_mutations ms h1 d' = Some (h2, d2) -> load_tries h2 d = load_tries h d.
Proof.
  intros [Wa Wn].
  assert (Hload : exists t, load_tries h d = Some t).
  { unfold load_tries, deref.
    destruct (Wa (epochP d)) as [e ->]; [unfold ptrs; set_solver|].
    destruct (Wa (delegateP d)) as [dl ->]; [unfold ptrs; set_solver|].
    destruct (Wa (voteP d)) as [v ->]; [unfold ptrs; set_solver|].
    destruct (Wa (candidateP d)) as [c ->]; [unfold ptrs; set_solver|].
    destruct (Wa (mintCntP d)) as [m ->]; [unfold ptrs; set_solver|].
    simpl. eauto. }
  destruct Hload as [t Ht].
  assert (Hlt : forall p, p ∈ ptrs d -> p < next_ptr h) by (intros p Hp; exact (Wn p (Wa p Hp))).
  unfold Copy. rewrite Ht. simpl.
  eexists; eexists; split; [reflexivity|].
  set (n := next_ptr h) in *.
  match goal with |- _ /\ load_tries ?h1 _ = _ /\ _ => set (H1 := h1) end.
  assert (Hold : forall p, p ∈ ptrs d -> cells H1 !! p = cells h !! p).
  { intros p Hp. specialize (Hlt p Hp). subst H1. simpl.
    rewrite !lookup_insert_ne by lia. reflexivity. }
  split; [reflexivity|]. split; [|split].
  - unfold load_tries, deref. subst H1. simpl.
    repeat first [rewrite lookup_insert_eq | rewrite lookup_insert_ne by lia].
    simpl. destruct t; reflexivity.
  - rewrite <- Ht. apply load_tries_frame. exact Hold.
  - intros h2 d2 Hrun. rewrite <- Ht. apply load_tries_frame. intros p Hp.
    rewrite <- (Hold p Hp).
    eapply (run_mutations_frame ms H1 _ h2 d2 (ptrs d)); [| | exact Hrun | exact Hp].
    + intros q Hq Hq'. specialize (Hlt q Hq'). unfold ptrs in Hq. simpl in Hq.
      repeat (apply elem_of_cons in Hq as [->|Hq]; [lia|]). set_solver.
    + intros q Hq. specialize (Hlt q Hq). subst H1. simpl. lia.
Qed.

Lemma copy_independent_witness :
  ctx_wf heap0 ctx0 /\
  exists h1 d', Copy heap0 ctx0 = Some (h1, d') /\ dbP d' = None /\
    load_tries h1 d' = load_tries heap0 ctx0 /\ load_tries h1 ctx0 = load_tries heap0 ctx0 /\
    forall h2 d2,
      run_mutations [MVote (OpBecomeCandidate addrA); MTryUpdate TMintCnt addrA addrB] h1 d'
        = Some (h2, d2) ->
      load_tries h2 ctx0 = load_tries heap0 ctx0.
Proof.
  assert (W : ctx_wf heap0 ctx0).
  { split.
    - intros p Hp. unfold ptrs in Hp. simpl in Hp.
      repeat (apply elem_of_cons in Hp as [->|Hp]; [eexists; reflexivity|]).
      by apply elem_of_nil in Hp.
    - intros p [x Hx]. simpl in *.
      repeat (apply lookup_insert_Some in Hx as [[<- _]|[_ Hx]]; [lia|]).
      by rewrite lookup_empty in Hx. }
  split; [exact W|]. exact (copy_independent heap0 ctx0 _ W).
Defined.

(* ------------------------------------------------------------------ *)
(** ** Mint counter *)

Lemma byte_of_Z_to_Z (x : Z) : Z.of_N (Byte.to_N (byte_of_Z x)) = (x mod 256)%Z.
Proof.
  unfold byte_of_Z.
  assert (Hb : (0 <= x mod 256 < 256)%Z) by (apply Z.mod_pos_bound; lia).
  destruct (Byte.of_N (Z.to_N (x mod 256))) as [b|] eqn:E; simpl.
  - apply Byte.to_of_N in E. rewrite E. apply Z2N.id. lia.
  - apply Byte.of_N_None_iff in E. lia.
Qed.

Lemma be_bytes_decode (n : nat) (u : Z) :
  fold_left (fun acc x => (acc * 256 + Z.of_N (Byte.to_N x))%Z)
    (map (fun i => byte_of_Z (Z.shiftr u (8 * (Z.of_nat n - 1 - Z.of_nat i)))) (seq 0 n)) 0%Z
  = (u mod 2 ^ (8 * Z.of_nat n))%Z.
Proof.
  revert u. induction n as [|n IH]; intros u.
  - simpl. rewrite Z.mod_1_r. reflexivity.
  - rewrite seq_S, map_app, fold_left_app. simpl fold_left at 1.
    rewrite (map_ext_in _ (fun i => byte_of_Z (Z.shiftr (Z.shiftr u 8)
                                   (8 * (Z.of_nat n - 1 - Z.of_nat i))))).
    2:{ intros i Hi. apply in_seq in Hi. rewrite Z.shiftr_shiftr by lia.
        f_equal. f_equal. lia. }
    rewrite IH. cbn [fold_left]. rewrite byte_of_Z_to_Z.
    replace (8 * (Z.of_nat (S n) - 1 - Z.of_nat n))%Z with 0%Z by lia.
    rewrite Z.shiftr_0_r, Z.shiftr_div_pow2 by lia.
    replace (8 * Z.of_nat (S n))%Z with (8 + 8 * Z.of_nat n)%Z by lia.
    rewrite Z.pow_add_r by lia.
    change (2 ^ 8)%Z with 256%Z.
    assert (HP : (0 < 2 ^ (8 * Z.of_nat n))%Z) by (apply Z.pow_pos_nonneg; lia).
    set (P := (2 ^ (8 * Z.of_nat n))%Z) in *.
    apply (Z.mod_unique _ _ (u / 256 / P)).
    + left. pose proof (Z.mod_pos_bound (u / 256) P HP).
      pose proof (Z.mod_pos_bound u 256 ltac:(lia)). nia.
    + pose proof (Z.div_mod u 256 ltac:(lia)).
      pose proof (Z.div_mod (u / 256) P ltac:(lia)). nia.
Qed.

Lemma length_be64 (z : Z) : length (be64 z) = 8%nat.
Proof. reflexivity. Qed.

Lemma be64_decode_be64_helper (z : Z) : be64_decode (be64 z) = Some (z mod 2 ^ 64)%Z.
Proof.
  unfold be64_decode. rewrite length_be64. simpl Nat.ltb. cbv iota.
  rewrite take_ge by (rewrite length_be64; lia).
  unfold be64.
  rewrite (map_ext _ (fun i => byte_of_Z (Z.shiftr (to_u64 z)
                         (8 * (Z.of_nat 8 - 1 - Z.of_nat i))))).
  2:{ intros i. replace (Z.of_nat 8 - 1 - Z.of_nat i)%Z with (7 - Z.of_nat i)%Z by lia.
      reflexivity. }
  rewrite be_bytes_decode. unfold to_u64. rewrite Z.mod_mod by lia. reflexivity.
Qed.

(** [binary.BigEndian.PutUint64] and [Uint64], as [updateMintCnt] uses
    them, are inverse: the encoding of [z] is 8 bytes long and decodes to
    [uint64(z)], i.e. [z mod 2^64]. *)
Theorem be64_roundtrip (z : Z) :
  length (be64 z) = 8%nat /\ be64_decode (be64 z) = Some (z mod 2 ^ 64)%Z.
Proof. split; [apply length_be64 | apply be64_decode_be64_helper]. Qed.

Lemma updateMintCnt_spec (tP tC : Z) (V : bytes) (t : trie) :
  map_Forall (fun _ v => length v = 8%nat) t ->
  exists c, updateMintCnt tP tC V t
            = Some (<[be64 (Z.quot tC epochInterval) ++ V := be64 c]> t) /\
    (Z.quot tP epochInterval = Z.quot tC epochInterval ->
     match t !! (be64 (Z.quot tC epochInterval) ++ V) with
     | Some old => exists u, be64_decode old = Some u /\ c = (u + 1)%Z
     | None => c = 1%Z
     end).
Proof.
  intros H8. unfold updateMintCnt.
  destruct (Z.eqb_spec (Z.quot tP epochInterval) (Z.quot tC epochInterval)) as [Heq|Hne].
  2:{ exists 1%Z. split; [reflexivity|]. intros E; contradiction. }
  rewrite Heq. unfold trie_get.
  destruct (t !! (be64 (Z.quot tC epochInterval) ++ V)) as [old|] eqn:Ho.
  2:{ destruct (iter_next_from _ _); exists 1%Z; (split; [reflexivity|]); auto. }
  rewrite (iter_next_from_prefix _ _ _ _ Ho).
  destruct (be64_decode old) as [u|] eqn:Hd.
  2:{ exfalso. unfold be64_decode in Hd. rewrite (H8 _ _ Ho) in Hd. simpl in Hd. discriminate. }
  exists (u + 1)%Z. split.
  - rewrite trie_update_be64, be64_succ_wrap. reflexivity.
  - intros _. exists u. auto.
Qed.

(** [updateMintCnt] keeps the mint-count trie well formed: if every stored
    count is 8 bytes long it never panics, the counts stay 8 bytes long,
    and only the entry of [(cur_epoch, V)] changes. *)
Theorem mint_count_invariant (tP tC : Z) (V : bytes) (t : trie) :
  map_Forall (fun _ v => length v = 8%nat) t ->
  exists t', updateMintCnt tP tC V t = Some t' /\
    map_Forall (fun _ v => length v = 8%nat) t' /\
    forall k, k <> be64 (Z.quot tC epochInterval) ++ V -> t' !! k = t !! k.
Proof.
  intros H8. destruct (updateMintCnt_spec tP tC V t H8) as (c & Hc & _).
  eexists. split; [exact Hc|]. split.
  - apply map_Forall_insert_2; [apply length_be64 | exact H8].
  - intros k Hk. apply lookup_insert_ne. congruence.
Qed.

Lemma mint_count_invariant_witness :
  map_Forall (fun _ v => length v = 8%nat) ({[be64 0 ++ addrA := be64 4]} : trie) /\
  exists t', updateMintCnt 100 90000 addrB {[be64 0 ++ addrA := be64 4]} = Some t' /\
    map_Forall (fun _ v => length v = 8%nat) t' /\
    forall k, k <> be64 (Z.quot 90000 epochInterval) ++ addrB ->
      t' !! k = ({[be64 0 ++ addrA := be64 4]} : trie) !! k.
Proof.
  assert (H8 : map_Forall (fun _ v => length v = 8%nat)
                 ({[be64 0 ++ addrA := be64 4]} : trie)).
  { intros k v Hk. apply lookup_singleton_Some in Hk as [_ <-]. reflexivity. }
  split; [exact H8|]. exact (mint_count_invariant 100 90000 addrB _ H8).
Defined.

(** Counting: starting from a well-formed mint-count trie without an entry
    for [(e, V)], [n] successive [updateMintCnt] calls for blocks of [V]
    whose parent and own times both lie in epoch [e] leave the count [n]
    (as a 64-bit big-endian value). *)
Theorem mint_count_counts (tP tC : Z) (V : bytes) (t : trie) (n : nat) :
  map_Forall (fun _ v => length v = 8%nat) t ->
  Z.quot tP epochInterval = Z.quot tC epochInterval ->
  t !! (be64 (Z.quot tC epochInterval) ++ V) = None ->
  exists t', Nat.iter n (fun ot => ot ≫= updateMintCnt tP tC V) (Some t) = Some t' /\
    map_Forall (fun _ v => length v = 8%nat) t' /\
    t' !! (be64 (Z.quot tC epochInterval) ++ V)
      = (if (n =? 0)%nat then None else Some (be64 (Z.of_nat n))).
Proof.
  intros H8 Heq Hnone. induction n as [|n IH].
  - exists t. split; [reflexivity|]. split; [exact H8|exact Hnone].
  - destruct IH as (t1 & Ht1 & H81 & Hk1). simpl. rewrite Ht1. simpl.
    destruct (updateMintCnt_spec tP tC V t1 H81) as (c & Hc & Hcase).
    rewrite Hc. eexists. split; [reflexivity|]. split.
    + apply map_Forall_insert_2; [apply length_be64 | exact H81].
    + rewrite lookup_insert_eq. specialize (Hcase Heq).
      destruct n as [|n]; cbn [Nat.eqb] in Hk1; rewrite Hk1 in Hcase.
      * subst c. reflexivity.
      * destruct Hcase as (u & Hd & ->).
        rewrite be64_decode_be64_helper in Hd. injection Hd as <-.
        simpl. f_equal. unfold be64, to_u64.
        replace ((Z.of_nat (S n) mod 2 ^ 64 + 1) mod 2 ^ 64)%Z
          with (Z.of_nat (S (S n)) mod 2 ^ 64)%Z; [reflexivity|].
        rewrite Zplus_mod_idemp_l. f_equal. lia.
Qed.

Lemma mint_count_counts_witness :
  exists t', Nat.iter 3 (fun ot => ot ≫= updateMintCnt 100 200 addrA) (Some ∅) = Some t' /\
    map_Forall (fun _ v => length v = 8%nat) t' /\
    t' !! (be64 (Z.quot 200 epochInterval) ++ addrA) = Some (be64 3).
Proof.
  apply (mint_count_counts 100 200 addrA ∅ 3).
  - apply map_Forall_empty.
  - reflexivity.
  - reflexivity.
Defined.

(* ------------------------------------------------------------------ *)
(** ** Confirmed block header *)

Lemma confirm_loop_cases hash getH store (fuel : nat) (gh : option Header)
    (conf cur : Header) (ep : Z) (W : list bytes) c' st e :
  confirm_loop hash getH store fuel gh conf cur ep W = Some (c', st, e) ->
  (st = None /\ c' = conf) \/
  (st = Some c' /\ e = option_map inl (store c') /\
   (bigUint64 (Number conf) < bigUint64 (Number c'))%Z).
Proof.
  revert cur ep W. induction fuel as [|f IH]; intros cur ep W Hl; [discriminate|].
  cbn [confirm_loop] in Hl.
  destruct (negb _ && (bigUint64 (Number conf) <? bigUint64 (Number cur))%Z) eqn:G.
  2:{ injection Hl as <- <- <-. auto. }
  apply andb_true_iff in G as [_ G]. apply Z.ltb_lt in G.
  destruct (negb (_ =? ep)%Z); (destruct gh as [g|]; [|discriminate]);
  (destruct (_ <? _)%Z; [injection Hl as <- <- <-; auto|]);
  (destruct (_ <=? _)%Z; [injection Hl as <- <- <-; right; auto|]);
  (destruct (getH (ParentHash cur)) as [p|]; [|injection Hl as <- <- <-; auto]);
  eapply IH; exact Hl.
Qed.

(** The confirmed header never moves backwards: the loop of
    [updateConfirmedBlockHeader] either leaves [d.confirmedBlockHeader] as
    it was and persists nothing (on a fast return, on the loop's end and on
    [ErrNilBlockHeader]), or replaces it by a header of a strictly greater
    number (as the loop compares them, [Number.Uint64()]), which is then the
    header persisted, with the error of [storeConfirmedBlockHeader] as the
    error returned. *)
Theorem confirmed_header_monotone hash getH store (fuel : nat) (gh : option Header)
    (conf cur : Header) (ep : Z) (W : list bytes) c' st e :
  confirm_loop hash getH store fuel gh conf cur ep W = Some (c', st, e) ->
  (st = None /\ c' = conf) \/
  (st = Some c' /\ e = option_map inl (store c') /\
   (bigUint64 (Number conf) < bigUint64 (Number c'))%Z).
Proof. apply confirm_loop_cases. Qed.

Lemma confirmed_header_monotone_witness :
  confirm_loop chain_hash (chain_lookup chain_ABC) (fun _ => None) 4 (Some genesis_hdr)
    genesis_hdr (mk_header 3 addrC) (-1) []
  = Some (mk_header 1 addrA, Some (mk_header 1 addrA), None) /\
  ((Some (mk_header 1 addrA) = None /\ mk_header 1 addrA = genesis_hdr) \/
   (Some (mk_header 1 addrA) = Some (mk_header 1 addrA) /\
    (None : option (DbErr + SealErr)) = option_map inl ((fun _ => None) (mk_header 1 addrA)) /\
    (bigUint64 (Number genesis_hdr) < bigUint64 (Number (mk_header 1 addrA)))%Z)).
Proof.
  assert (E : confirm_loop chain_hash (chain_lookup chain_ABC) (fun _ => None) 4
    (Some genesis_hdr) genesis_hdr (mk_header 3 addrC) (-1) []
    = Some (mk_header 1 addrA, Some (mk_header 1 addrA), None)) by (vm_compute; reflexivity).
  split; [exact E|]. exact (confirmed_header_monotone _ _ _ _ _ _ _ _ _ _ _ _ E).
Defined.

(** Fast return: when [GetHeaderByNumber(0)] finds the genesis, and the
    current header is fewer than
    [consensusSize = max_validator_size * 2 / 3 + 1] blocks ahead of the
    confirmed one, [updateConfirmedBlockHeader] confirms nothing, persists
    nothing and returns no error, whatever the validators of those blocks.
    The confirmed header is the one held, else the one loaded, else the
    genesis; the sizes are those of a real chain: [max_validator_size] at
    most [2^62], block numbers below [2^63]. *)
Theorem confirm_fast_return hash getH store (confirmedOpt : option Header)
    (loaded : Header + (DbErr + SealErr)) (g current : Header) :
  let conf := match confirmedOpt with
              | Some c => c
              | None => match loaded with inl h => h | inr _ => g end
              end in
  (0 <= MaxValidatorSize g <= 2^62)%Z ->
  (0 <= Number conf < 2^63)%Z -> (0 <= Number current < 2^63)%Z ->
  (Number current - Number conf < MaxValidatorSize g * 2 / 3 + 1)%Z ->
  updateConfirmedBlockHeader hash getH store confirmedOpt loaded (Some g) current
  = Some (Some conf, None, None).
Proof.
  intros conf HM Hc Hn Hlt. pose proof (consensus_bound _ HM) as Hb.
  assert (Hl : forall fuel ep,
    confirm_loop hash getH store (S fuel) (Some g) conf current ep [] = Some (conf, None, None)).
  { intros fuel ep. cbn [confirm_loop].
    destruct (negb _ && _); [|reflexivity].
    rewrite (bigInt64_id (Number current)), (bigInt64_id (Number conf)) by lia.
    rewrite consensusSize_id by exact HM.
    rewrite (wrap64_id (Number current - Number conf)) by lia.
    destruct (negb (_ =? ep)%Z); cbn [length Z.of_nat];
      (rewrite (wrap64_id (_ - 0)) by lia; rewrite (proj2 (Z.ltb_lt _ _)) by lia;
       reflexivity). }
  unfold updateConfirmedBlockHeader.
  destruct confirmedOpt as [c|]; [|destruct loaded as [h|err]];
    cbn beta iota zeta; subst conf; rewrite Hl; reflexivity.
Qed.

Lemma confirm_fast_return_witness :
  updateConfirmedBlockHeader chain_hash (chain_lookup chain_AAB) (fun _ => None)
    None (inr (inl ErrNotFound)) (Some genesis_hdr) (mk_header 2 addrB)
  = Some (Some genesis_hdr, None, None).
Proof.
  apply (confirm_fast_return chain_hash (chain_lookup chain_AAB) (fun _ => None)
           None (inr (inl ErrNotFound)) genesis_hdr (mk_header 2 addrB)); cbn;
    first [lia | (apply Z.ltb_lt; reflexivity)].
Defined.

Lemma confirm_loop_some hash getH store (InChain : Header -> Prop)
    (Hrange : forall h, InChain h -> (0 <= Number h < 2^64)%Z)
    (Hpar : forall h p, InChain h -> getH (ParentHash h) = Some p ->
            InChain p /\ (Number p < Number h)%Z)
    (g : Header) (fuel : nat) (conf cur : Header) (ep : Z) (W : list bytes) :
  InChain cur -> (bigUint64 (Number cur) - bigUint64 (Number conf) <= Z.of_nat fuel)%Z ->
  is_Some (confirm_loop hash getH store (S fuel) (Some g) conf cur ep W).
Proof.
  revert cur ep W. induction fuel as [|f IH]; intros cur ep W Hin Hlt.
  - cbn [confirm_loop]. simpl in Hlt.
    rewrite (proj2 (Z.ltb_ge (bigUint64 (Number conf)) (bigUint64 (Number cur)))) by lia.
    rewrite andb_false_r. eauto.
  - remember (S f) as n eqn:En. cbn [confirm_loop].
    destruct (negb _ && (bigUint64 (Number conf) <? bigUint64 (Number cur))%Z);
      [|eexists; reflexivity].
    cbn beta iota zeta.
    repeat match goal with
    | |- is_Some (Some _) => eexists; reflexivity
    | |- is_Some (if ?b then _ else _) => destruct b
    | |- is_Some (let '(_, _) := ?b in _) => destruct b
    | |- is_Some (match getH (ParentHash cur) with _ => _ end) =>
        destruct (getH (ParentHash cur)) as [p|] eqn:Hp
    end;
    destruct (Hpar _ _ Hin Hp) as [Hinp Hnp];
    pose proof (Hrange _ Hin); pose proof (Hrange _ Hinp);
    subst n; apply IH; [exact Hinp|];
    rewrite (bigUint64_id (Number p)) by lia;
    rewrite (bigUint64_id (Number cur)) in Hlt by lia; lia.
Qed.

(** The walk of [updateConfirmedBlockHeader] from the current header back
    through [GetHeaderByHash(ParentHash)] ends: when [GetHeaderByNumber(0)]
    finds a header, on a chain of headers whose numbers fit in 64 bits and
    in which every parent found has a smaller number, the loop terminates
    within [number(current) + 1] iterations, the bound the model gives it;
    the tracker neither panics nor runs on, whatever the confirmed header
    it starts from. *)
Theorem confirm_terminates hash getH store (InChain : Header -> Prop)
    (confirmedOpt : option Header) (loaded : Header + (DbErr + SealErr))
    (g current : Header) :
  (forall h, InChain h -> (0 <= Number h < 2^64)%Z) ->
  (forall h p, InChain h -> getH (ParentHash h) = Some p ->
     InChain p /\ (Number p < Number h)%Z) ->
  InChain current ->
  is_Some (updateConfirmedBlockHeader hash getH store confirmedOpt loaded (Some g) current).
Proof.
  intros Hrange Hpar Hin.
  assert (Hl : forall conf,
    is_Some (confirm_loop hash getH store (S (Z.to_nat (bigUint64 (Number current))))
               (Some g) conf current (-1) [])).
  { intros conf. apply (confirm_loop_some _ _ _ InChain Hrange Hpar); [exact Hin|].
    pose proof (bigUint64_nonneg (Number conf)).
    pose proof (bigUint64_nonneg (Number current)).
    rewrite Z2Nat.id by lia. lia. }
  unfold updateConfirmedBlockHeader.
  destruct confirmedOpt as [c|]; [|destruct loaded as [h|err]]; cbn beta iota zeta;
    match goal with
    | |- context [confirm_loop _ _ _ _ _ ?cf _ _ _] =>
        destruct (Hl cf) as [[[c' st] e] ->]; eexists; reflexivity
    end.
Qed.

Lemma chain_ABC_parents (h p : Header) :
  In h chain_ABC -> chain_lookup chain_ABC (ParentHash h) = Some p ->
  In p chain_ABC /\ (Number p < Number h)%Z.
Proof.
  intros Hin Hp. simpl in Hin.
  destruct Hin as [<-|[<-|[<-|[<-|[]]]]]; vm_compute in Hp; try discriminate;
  injection Hp as <-; split; (simpl; auto 6 || (vm_compute; reflexivity)).
Qed.

Lemma chain_ABC_range (h : Header) : In h chain_ABC -> (0 <= Number h < 2^64)%Z.
Proof. intros Hin. simpl in Hin. destruct Hin as [<-|[<-|[<-|[<-|[]]]]]; cbn; lia. Qed.

Lemma confirm_terminates_witness :
  is_Some (updateConfirmedBlockHeader chain_hash (chain_lookup chain_ABC)
             (fun _ => None) None (inr (inl ErrNotFound)) (Some genesis_hdr)
             (mk_header 3 addrC)).
Proof.
  apply (confirm_terminates chain_hash (chain_lookup chain_ABC) (fun _ => None)
           (fun h => In h chain_ABC) None (inr (inl ErrNotFound)) genesis_hdr
           (mk_header 3 addrC)).
  - exact chain_ABC_range.
  - exact chain_ABC_parents.
  - simpl. auto 6.
Defined.

(** Storing a confirmed header and loading it back gives the same header:
    [loadConfirmedBlockHeader] reads the hash [storeConfirmedBlockHeader]
    wrote, as long as hashes are 32 bytes (which [BytesToHash] keeps) and
    the chain knows the header by its hash. *)
Theorem confirmed_store_load_roundtrip (hash : Header -> bytes)
    (getH : bytes -> option Header) (BytesToHash : bytes -> bytes)
    (db : gmap bytes bytes) (c : Header) :
  (forall b, length b = 32%nat -> BytesToHash b = b) ->
  length (hash c) = 32%nat ->
  getH (hash c) = Some c ->
  loadConfirmedBlockHeader getH BytesToHash (storeConfirmedBlockHeader hash db c) = inl c.
Proof.
  intros HB Hl Hg. unfold loadConfirmedBlockHeader, storeConfirmedBlockHeader.
  rewrite lookup_insert_eq, (HB _ Hl), Hg. reflexivity.
Qed.

Lemma confirmed_store_load_roundtrip_witness :
  (forall b : bytes, length b = 32%nat -> (fun b => b) b = b) /\
  length (hash32 (mk_header 2 addrB)) = 32%nat /\
  find (fun h => bool_decide (hash32 h = hash32 (mk_header 2 addrB))) chain_ABC
    = Some (mk_header 2 addrB) /\
  loadConfirmedBlockHeader (fun k => find (fun h => bool_decide (hash32 h = k)) chain_ABC)
    (fun b => b) (storeConfirmedBlockHeader hash32 ∅ (mk_header 2 addrB))
  = inl (mk_header 2 addrB).
Proof.
  assert (HB : forall b : bytes, length b = 32%nat -> (fun b => b) b = b) by reflexivity.
  assert (Hl : length (hash32 (mk_header 2 addrB)) = 32%nat) by reflexivity.
  assert (Hg : find (fun h => bool_decide (hash32 h = hash32 (mk_header 2 addrB))) chain_ABC
               = Some (mk_header 2 addrB)) by (vm_compute; reflexivity).
  split; [exact HB|]. split; [exact Hl|]. split; [exact Hg|].
  exact (confirmed_store_load_roundtrip hash32
           (fun k => find (fun h => bool_decide (hash32 h = k)) chain_ABC)
           (fun b => b) ∅ (mk_header 2 addrB) HB Hl Hg).
Defined.

Lemma NextSlot_value (now bi : Z) :
  (1 <= bi)%Z -> (0 <= now)%Z -> (now + bi < 2 ^ 63)%Z ->
  NextSlot now bi = Some (((now + bi - 1) / bi) * bi)%Z.
Proof.
  intros H1 H2 H3. unfold NextSlot, div64.
  rewrite (wrap64_id bi) by lia. rewrite (wrap64_id (now + bi)) by lia.
  rewrite (wrap64_id (now + bi - 1)) by lia.
  rewrite (proj2 (Z.eqb_neq bi 0)) by lia.
  rewrite Z.quot_div_nonneg by lia.
  assert (Hq : (0 <= (now + bi - 1) / bi <= now + bi - 1)%Z).
  { split; [apply Z.div_pos; lia|]. apply Z.div_le_upper_bound; nia. }
  rewrite (wrap64_id ((now + bi - 1) / bi)) by lia.
  pose proof (Z.mul_div_le (now + bi - 1) bi ltac:(lia)).
  rewrite (wrap64_id (_ * bi)) by nia. reflexivity.
Qed.

Lemma PrevSlot_some (now bi : Z) :
  (1 <= bi < 2 ^ 63)%Z -> is_Some (PrevSlot now bi).
Proof.
  intros H. unfold PrevSlot, div64.
  rewrite (wrap64_id bi) by lia. rewrite (proj2 (Z.eqb_neq bi 0)) by lia. eauto.
Qed.

(** The wait of [Seal], [NextSlot(now, blockInterval) - now], is less than
    one block interval and ends on a slot boundary: for in-range [int64]
    values, [NextSlot] is the least multiple of the interval at or after
    [now]. *)
Theorem seal_delay_bounds (now bi : Z) :
  (1 <= bi)%Z -> (0 <= now)%Z -> (now + bi < 2 ^ 63)%Z ->
  exists ns, NextSlot now bi = Some ns /\
    (0 <= wrap64 (ns - now) < bi)%Z /\ wrap64 (ns - now) = (ns - now)%Z /\
    (ns mod bi = 0)%Z.
Proof.
  intros H1 H2 H3. rewrite NextSlot_value by lia.
  eexists. split; [reflexivity|].
  pose proof (Z.mul_div_le (now + bi - 1) bi ltac:(lia)) as Hle.
  pose proof (Z.mul_succ_div_gt (now + bi - 1) bi ltac:(lia)) as Hgt.
  set (q := ((now + bi - 1) / bi)%Z) in *.
  rewrite wrap64_id by nia. split; [nia|]. split; [reflexivity|].
  apply Z.mod_mul. lia.
Qed.

Lemma seal_delay_bounds_witness :
  (1 <= 10)%Z /\ (0 <= 1234567)%Z /\ (1234567 + 10 < 2 ^ 63)%Z /\
  exists ns, NextSlot 1234567 10 = Some ns /\
    (0 <= wrap64 (ns - 1234567) < 10)%Z /\ wrap64 (ns - 1234567) = (ns - 1234567)%Z /\
    (ns mod 10 = 0)%Z.
Proof.
  split; [lia|]. split; [lia|]. split; [lia|].
  apply seal_delay_bounds; lia.
Defined.

Module EngineFacts.
Import Engine.

(** At a slot boundary [checkDeadline] never asks to wait: with [now] a
    multiple of the block interval, it accepts exactly when the last block
    is older than [now], and otherwise reports [ErrMintFutureBlock]. *)
Theorem check_deadline_on_slot (lastTime now bi : Z) :
  (1 <= bi)%Z -> (1 <= now)%Z -> (now + bi < 2 ^ 63)%Z -> (now mod bi = 0)%Z ->
  checkDeadline lastTime now bi
  = Some (if (now <=? lastTime)%Z then Some ErrMintFutureBlock else None).
Proof.
  intros H1 H2 H3 Hm. unfold checkDeadline.
  destruct (PrevSlot_some now bi ltac:(lia)) as [p ->].
  rewrite NextSlot_value by lia.
  assert (Hn : ((now + bi - 1) / bi * bi = now)%Z).
  { pose proof (Z.div_mod now bi ltac:(lia)) as Hd. rewrite Hm, Z.add_0_r in Hd.
    rewrite Hd at 1. replace (bi * (now / bi) + bi - 1)%Z with ((bi - 1) + (now / bi) * bi)%Z by lia.
    rewrite Z.div_add by lia. rewrite (Z.div_small (bi - 1)) by lia. lia. }
  rewrite Hn, Z.sub_diag. replace (wrap64 0) with 0%Z by reflexivity.
  destruct (now <=? lastTime)%Z; [reflexivity|].
  rewrite orb_true_r. reflexivity.
Qed.

Lemma check_deadline_on_slot_witness :
  (1 <= 10)%Z /\ (1 <= 1234560)%Z /\ (1234560 + 10 < 2 ^ 63)%Z /\ (1234560 mod 10 = 0)%Z /\
  checkDeadline 1234550 1234560 10 = Some None.
Proof.
  assert (H : (1234560 mod 10 = 0)%Z) by reflexivity.
  split; [lia|]. split; [lia|]. split; [lia|]. split; [exact H|].
  exact (check_deadline_on_slot 1234550 1234560 10 ltac:(lia) ltac:(lia) ltac:(lia) H).
Defined.

Lemma take_repeat {A} (x : A) (n m : nat) : take n (repeat x m) = repeat x (Nat.min n m).
Proof.
  revert m. induction n as [|n IH]; intros [|m]; simpl; try reflexivity.
  rewrite IH. reflexivity.
Qed.

Lemma take_vanity (E : bytes) :
  take extraVanity (if (length E <? extraVanity)%nat
                    then E ++ repeat Byte.x00 (extraVanity - length E) else E)
  = take 32 (E ++ zeros 32).
Proof.
  unfold extraVanity, zeros. destruct (Nat.ltb_spec (length E) 32) as [Hl|Hl].
  - rewrite take_ge by (rewrite length_app, repeat_length; lia).
    rewrite take_app, take_ge by lia. f_equal.
    rewrite take_repeat. f_equal. lia.
  - rewrite take_app_le by lia. reflexivity.
Qed.

Lemma length_take_vanity (E : bytes) : length (take 32 (E ++ zeros 32)) = 32%nat.
Proof. rewrite length_take, length_app. unfold zeros. rewrite repeat_length. lia. Qed.

Lemma Prepare_spec getH (signer : bytes) (h h' : Header) (r : option EngineErr) :
  Prepare getH signer h = Some (h', r) ->
  exists n, Number h = Some n /\ Number h' = Some n /\
    Extra h' = take 32 (Extra h ++ zeros 32) ++ zeros 65 /\
    Nonce h' = zeros 8 /\ ParentHash h' = ParentHash h /\ Time h' = Time h /\
    MixDigest h' = MixDigest h /\ UncleHash h' = UncleHash h /\
    match r with
    | None => Difficulty h' = 1%Z /\ Validator h' = signer
    | Some e => e = ErrUnknownAncestor /\ Difficulty h' = Difficulty h /\
                Validator h' = Validator h
    end.
Proof.
  unfold Prepare. destruct h as [ph uh v d [n|] t e md no]; simpl; [|discriminate].
  rewrite take_vanity.
  destruct (getH ph _) as [parent|]; intros Hp; injection Hp as <- <-;
  exists n; simpl; repeat split; reflexivity.
Qed.

(** [Prepare] lays out the extra-data as 32 bytes of vanity (the old
    prefix, zero-padded) followed by a zeroed 65-byte seal, and clears the
    nonce.  It does so before it looks up the parent, so a header left with
    [ErrUnknownAncestor] has had these fields rewritten too, while its
    difficulty and validator are the old ones; on success the difficulty
    is 1 and the validator is the local signer. *)
Theorem prepare_layout getH (signer : bytes) (h h' : Header) (r : option EngineErr) :
  Prepare getH signer h = Some (h', r) ->
  length (Extra h') = 97%nat /\
  take 32 (Extra h') = take 32 (Extra h ++ zeros 32) /\
  drop 32 (Extra h') = zeros 65 /\ Nonce h' = zeros 8 /\
  match r with
  | None => Difficulty h' = 1%Z /\ Validator h' = signer
  | Some e => e = ErrUnknownAncestor /\ Difficulty h' = Difficulty h /\
              Validator h' = Validator h
  end.
Proof.
  intros Hp. destruct (Prepare_spec _ _ _ _ _ Hp) as (n & _ & _ & He & Hn & _ & _ & _ & _ & Hr).
  rewrite He. pose proof (length_take_vanity (Extra h)) as Hl.
  split; [rewrite length_app, Hl; reflexivity|].
  split; [rewrite take_app_le by lia; apply take_ge; lia|].
  split; [rewrite drop_app_ge by lia; rewrite Hl; reflexivity|].
  split; [exact Hn|exact Hr].
Qed.

Lemma prepare_layout_witness :
  exists h', Prepare (fun _ _ => None) addrA prep_header = Some (h', Some ErrUnknownAncestor) /\
  (length (Extra h') = 97%nat /\
   take 32 (Extra h') = take 32 (Extra prep_header ++ zeros 32) /\
   drop 32 (Extra h') = zeros 65 /\ Nonce h' = zeros 8 /\
   (ErrUnknownAncestor = ErrUnknownAncestor /\ Difficulty h' = Difficulty prep_header /\
    Validator h' = Validator prep_header)).
Proof.
  eexists. split; [vm_compute; reflexivity|].
  apply (prepare_layout (fun _ _ => None) addrA prep_header _ (Some ErrUnknownAncestor)).
  vm_compute. reflexivity.
Defined.

(** [Prepare] and [verifyHeader] agree: a header [Prepare] completes
    without error is never rejected by [verifyHeader] for its extra-data
    ([errMissingVanity], [errMissingSignature]) or its difficulty. *)
Theorem prepare_then_verify getH (signer : bytes) (h h' : Header)
    hashH uncleHash verifyForkHashes (now : Z) (parents : list Header) (bi : Z) :
  Prepare getH signer h = Some (h', None) ->
  let res := verifyHeader getH hashH uncleHash verifyForkHashes now parents bi h' in
  res <> Some (Some errMissingVanity) /\ res <> Some (Some errMissingSignature) /\
  res <> Some (Some errInvalidDifficulty).
Proof.
  intros Hp res. destruct (Prepare_spec _ _ _ _ _ Hp) as (n & _ & Hn & He & _ & _ & _ & _ & _ & Hd & _).
  assert (Hl : length (Extra h') = 97%nat).
  { rewrite He, length_app, length_take_vanity. reflexivity. }
  subst res. unfold verifyHeader. rewrite Hn, Hl, Hd. simpl.
  destruct (now <? Time h')%Z; [split_and!; discriminate|].
  destruct (negb (bool_decide (MixDigest h' = zeroHash))); [split_and!; discriminate|].
  destruct (negb (bool_decide (UncleHash h' = uncleHash))); [split_and!; discriminate|].
  destruct (verifyForkHashes h'); [split_and!; discriminate|].
  destruct (match last parents with Some p => Some p | None => _ end) as [p|];
    [|split_and!; discriminate].
  destruct (Number p); [|split_and!; discriminate].
  destruct (_ || _); [split_and!; discriminate|].
  destruct (_ <? _)%Z; split_and!; discriminate.
Qed.

Lemma prepare_then_verify_witness :
  exists h', Prepare (fun _ _ => Some prep_parent) addrA prep_header = Some (h', None) /\
  let res := verifyHeader (fun _ _ => Some prep_parent) (fun _ => addrC) [] (fun _ => None)
               100 [] 10 h' in
  res <> Some (Some errMissingVanity) /\ res <> Some (Some errMissingSignature) /\
  res <> Some (Some errInvalidDifficulty).
Proof.
  eexists. split; [vm_compute; reflexivity|].
  apply (prepare_then_verify (fun _ _ => Some prep_parent) addrA prep_header).
  vm_compute. reflexivity.
Defined.

(** [Prepare], [Seal] and [ecrecover] fit together: on a prepared header,
    [Seal] writes the signature [signFn] returns over [sigHash] into the
    65 bytes after the vanity, [sigHash] of the sealed header is still the
    hash that was signed, and [ecrecover] of the sealed header recovers
    from exactly that hash and signature. *)
Theorem prepare_seal_recover getH (signer : bytes) (h h1 h2 : Header)
    rlpHash signFn (stopped : bool) (now bi : Z) recover :
  (forall s sig, signFn s = inl sig -> length sig = 65%nat) ->
  Prepare getH signer h = Some (h1, None) ->
  Seal rlpHash signFn stopped now bi h1 = Some (Some h2, None) ->
  exists s sig, sigHash rlpHash h1 = Some s /\ signFn s = inl sig /\
    Extra h2 = take 32 (Extra h ++ zeros 32) ++ sig /\
    sigHash rlpHash h2 = Some s /\
    forall a, recover s sig = inl a -> ecrecover rlpHash recover h2 = Some (inl a).
Proof.
  intros Hsig Hp Hs.
  destruct (Prepare_spec _ _ _ _ _ Hp) as (n & _ & Hn & He & _).
  pose proof (length_take_vanity (Extra h)) as Hl.
  set (V := take 32 (Extra h ++ zeros 32)) in *.
  assert (Hl1 : length (Extra h1) = 97%nat) by (rewrite He, length_app, Hl; reflexivity).
  assert (Hs1 : sigHash rlpHash h1 = Some (rlpHash (set_Extra h1 V))).
  { unfold sigHash. rewrite Hl1. simpl. rewrite He, take_app_le by lia.
    rewrite take_ge by lia. reflexivity. }
  unfold Seal in Hs. rewrite Hn in Hs.
  destruct (to_u64 n =? 0)%Z; [discriminate|].
  destruct (NextSlot now bi); [|discriminate].
  destruct (_ && stopped); [discriminate|].
  rewrite Hs1 in Hs.
  destruct (signFn (rlpHash (set_Extra h1 V))) as [sig|e] eqn:Hf; [|discriminate].
  injection Hs as <-. pose proof (Hsig _ _ Hf) as Hls.
  assert (Hc : copy_seal (Extra h1) sig = V ++ sig).
  { unfold copy_seal. rewrite Hl1. simpl (97 - extraSeal)%nat.
    rewrite He, take_app_le, take_ge, drop_app_ge by lia. rewrite Hl.
    replace (32 - 32)%nat with 0%nat by lia. rewrite drop_0. unfold zeros.
    rewrite repeat_length, Hls. simpl.
    rewrite take_ge by lia. rewrite app_nil_r. reflexivity. }
  assert (Hs2 : sigHash rlpHash (set_Extra h1 (copy_seal (Extra h1) sig))
                = Some (rlpHash (set_Extra h1 V))).
  { unfold sigHash. simpl Extra. rewrite Hc, length_app, Hl, Hls. simpl.
    rewrite take_app_le, take_ge by lia. destruct h1; reflexivity. }
  exists (rlpHash (set_Extra h1 V)), sig.
  split; [exact Hs1|]. split; [exact Hf|]. split; [simpl; exact Hc|]. split; [exact Hs2|].
  intros a Ha. unfold ecrecover. rewrite Hs2. simpl Extra. rewrite Hc, length_app, Hl, Hls.
  replace (32 + 65 - extraSeal)%nat with (length V) by (rewrite Hl; reflexivity).
  rewrite drop_app_length. simpl. rewrite Ha. reflexivity.
Qed.

Lemma prepare_seal_recover_witness :
  exists h1 h2,
  (forall s sig, (fun _ : bytes => inl (repeat Byte.x07 65) : bytes + nat) s = inl sig ->
     length sig = 65%nat) /\
  Prepare (fun _ _ => Some prep_parent) addrA prep_header = Some (h1, None) /\
  Seal Extra (fun _ => inl (repeat Byte.x07 65)) false 100 10 h1 = Some (Some h2, None) /\
  exists s sig, sigHash Extra h1 = Some s /\
    (fun _ : bytes => inl (repeat Byte.x07 65) : bytes + nat) s = inl sig /\
    Extra h2 = take 32 (Extra prep_header ++ zeros 32) ++ sig /\
    sigHash Extra h2 = Some s /\
    forall a, (fun _ sig => inl (take 20 sig) : bytes + nat) s sig = inl a ->
      ecrecover Extra (fun _ sig => inl (take 20 sig)) h2 = Some (inl a).
Proof.
  assert (Hsig : forall s sig,
    (fun _ : bytes => inl (repeat Byte.x07 65) : bytes + nat) s = inl sig ->
    length sig = 65%nat) by (intros s sig E; injection E as <-; reflexivity).
  assert (Hp : Prepare (fun _ _ => Some prep_parent) addrA prep_header
               = Some (set_Validator (set_Difficulty (set_Extra (set_Nonce prep_header (zeros 8))
                   (take 32 (Extra prep_header ++ zeros 32) ++ zeros 65)) 1) addrA, None))
    by (vm_compute; reflexivity).
  do 2 eexists. split; [exact Hsig|]. split; [exact Hp|].
  split; [vm_compute; reflexivity|].
  eapply (prepare_seal_recover (fun _ _ => Some prep_parent) addrA prep_header _ _ Extra
            (fun _ => inl (repeat Byte.x07 65)) false 100 10 (fun _ sig => inl (take 20 sig))
            Hsig Hp).
  vm_compute. reflexivity.
Defined.

End EngineFacts.
